(** * Bubble Rhythm (osuclone): the timing, resolution and scoring core of main.js

    A shallow embedding of [src/main.js].  JavaScript numbers are embedded as
    exact rationals [Q] (IEEE rounding, NaN and the infinities are outside the
    model); the counters of [STATE], which only ever hold 0, 1, 2, ..., are
    [nat].  The ambient object [STATE], the module-level [cssW]/[cssH]/[dpr]
    and the toast element are gathered in one record [World] that every
    operation takes and returns.  Each call of [performance.now()] is an
    explicit argument of the operation that makes it.  The canvas, the
    buttons, the prompt and the HUD are written by the script and never read
    back; they are left out. *)

From Stdlib Require Import QArith Qabs Qround Qminmax ZArith.
From Stdlib Require Import List Bool String Lia Lqa Arith Permutation Sorted.
Import ListNotations.

Open Scope Q_scope.

(** ** Comparisons on numbers, as booleans *)

(** [a <= b] *)
Definition Qleb (a b : Q) : bool := Qle_bool a b.
(** [a > b] *)
Definition Qgtb (a b : Q) : bool := negb (Qle_bool a b).
(** [a !== b] *)
Definition Qneqb (a b : Q) : bool := negb (Qeq_bool a b).

(** ** Config *)

Module CONFIG.
Definition PREEMPT_MS : Q := 900.
Definition HIT_WINDOW_MS : Q := 160.
Definition AFTER_MS : Q := 260.
Definition BASE_RADIUS_PX : Q := 34.
Definition APPROACH_RING_SCALE : Q := 1.8.

Definition PERFECT_MS : Q := 45.
Definition GOOD_MS : Q := 90.
Definition OK_MS : Q := 140.

Definition SCORE_PERFECT : Q := 300.
Definition SCORE_GOOD : Q := 150.
Definition SCORE_OK : Q := 60.
Definition SCORE_MISS : Q := 0.
Definition COMBO_BONUS : Q := 0.06.

Definition KEY_HIT : string := "KeyE".
End CONFIG.

(** ** Utilities *)

Definition clamp (v a b : Q) : Q := Qmax a (Qmin b v).
Definition lerp (a b t : Q) : Q := a + (b - a) * t.

Definition dist2 (ax ay bx by_ : Q) : Q :=
  let dx := ax - bx in
  let dy := ay - by_ in
  dx * dx + dy * dy.

(** ** Beatmap and runtime notes *)

(** A note of the chart: [{ tMs, xN, yN, rN? }]. *)
Record NoteDef : Type := mkNoteDef {
  def_tMs : Q;
  xN : Q;
  yN : Q;
  rN : option Q
}.

(** What [buildBeatmap] returns.  The chart itself is computed with
    [Math.sin]/[Math.cos] and is an input of the model. *)
Record Beatmap : Type := mkBeatmap {
  title : string;
  durationMs : Q;
  notes : list NoteDef
}.

(** [state]: ["pending" -> "hit" or "miss"]. *)
Inductive NoteState : Type := pending | hit | miss.

(** [judgment]: ["P"|"G"|"O"|"M"]. *)
Inductive Judgment : Type := JP | JG | JO | JM.

Definition NoteState_eqb (a b : NoteState) : bool :=
  match a, b with
  | pending, pending | hit, hit | miss, miss => true
  | _, _ => false
  end.

(** Note runtime representation; [None] is JavaScript's [null]. *)
Record RuntimeNote : Type := mkRuntimeNote {
  tMs : Q;
  x : Q;
  y : Q;
  r : Q;
  state : NoteState;
  judgedAtMs : option Q;
  deltaMs : option Q;
  judgment : option Judgment
}.

(** [rN ? clamp(rN, 0.6, 1.6) : 1.0]: a missing [rN] and [0] are falsy. *)
Definition radiusFactor (rn : option Q) : Q :=
  match rn with
  | Some v => if Qneqb v 0 then clamp v 0.6 1.6 else 1.0
  | None => 1.0
  end.

Definition makeRuntimeNote (noteDef : NoteDef) (px py radiusPx : Q) : RuntimeNote :=
  {| tMs := def_tMs noteDef;
     x := px;
     y := py;
     r := radiusPx * radiusFactor (rN noteDef);
     state := pending;
     judgedAtMs := None;
     deltaMs := None;
     judgment := None |}.

(** ** Game state *)

(** The flags and time stamps of [STATE] that drive the song clock. *)
Record Clock : Type := mkClock {
  running : bool;
  paused : bool;
  ended : bool;
  startAtPerfMs : Q;
  pauseAtPerfMs : Q;
  pausedTotalMs : Q
}.

(** The score fields of [STATE]. *)
Record Stats : Type := mkStats {
  score : Q;
  combo : nat;
  maxCombo : nat;
  p : nat;
  g : nat;
  o : nat;
  m : nat;
  totalJudged : nat;
  totalHit : nat
}.

(** What a toast shows; the text is formatted from these data. *)
Inductive ToastMsg : Type :=
| TLoaded (title : string) (count : nat)
| TNoHittable
| TJudged (j : Judgment) (deltaMs : Q)
| TFinished (maxCombo : nat) (acc : Q)
| TPaused
| TResume
| TGo.

(** [STATE], the module-level [cssW], [cssH], [dpr], and the toast element
    ([el.toast.textContent] and its class ["show"]). *)
Record World : Type := mkWorld {
  clock : Clock;
  cursorX : Q;
  cursorY : Q;
  stats : Stats;
  toastTimer : Q;
  beatmap : option Beatmap;
  noteStates : list RuntimeNote;
  cssW : Z;
  cssH : Z;
  dpr : Q;
  toastText : option ToastMsg;
  toastShow : bool
}.

Definition set_clock (c : Clock) (w : World) : World :=
  mkWorld c (cursorX w) (cursorY w) (stats w) (toastTimer w) (beatmap w)
          (noteStates w) (cssW w) (cssH w) (dpr w) (toastText w) (toastShow w).

Definition set_cursor (cx cy : Q) (w : World) : World :=
  mkWorld (clock w) cx cy (stats w) (toastTimer w) (beatmap w)
          (noteStates w) (cssW w) (cssH w) (dpr w) (toastText w) (toastShow w).

Definition set_stats (st : Stats) (w : World) : World :=
  mkWorld (clock w) (cursorX w) (cursorY w) st (toastTimer w) (beatmap w)
          (noteStates w) (cssW w) (cssH w) (dpr w) (toastText w) (toastShow w).

Definition set_beatmap (b : option Beatmap) (w : World) : World :=
  mkWorld (clock w) (cursorX w) (cursorY w) (stats w) (toastTimer w) b
          (noteStates w) (cssW w) (cssH w) (dpr w) (toastText w) (toastShow w).

Definition set_noteStates (ns : list RuntimeNote) (w : World) : World :=
  mkWorld (clock w) (cursorX w) (cursorY w) (stats w) (toastTimer w) (beatmap w)
          ns (cssW w) (cssH w) (dpr w) (toastText w) (toastShow w).

Definition set_view (cw ch : Z) (d : Q) (w : World) : World :=
  mkWorld (clock w) (cursorX w) (cursorY w) (stats w) (toastTimer w) (beatmap w)
          (noteStates w) cw ch d (toastText w) (toastShow w).

(** [toast(msg)]; [nowT] is the value [nowMs()] returns inside it. *)
Definition toast (nowT : Q) (msg : ToastMsg) (w : World) : World :=
  mkWorld (clock w) (cursorX w) (cursorY w) (stats w) nowT (beatmap w)
          (noteStates w) (cssW w) (cssH w) (dpr w) (Some msg) true.

(** [updateToast()]. *)
Definition updateToast (nowT : Q) (w : World) : World :=
  if negb (toastShow w) then w
  else
    let t := nowT - toastTimer w in
    if Qgtb t 1600 then
      mkWorld (clock w) (cursorX w) (cursorY w) (stats w) (toastTimer w) (beatmap w)
              (noteStates w) (cssW w) (cssH w) (dpr w) (toastText w) false
    else w.

(** ** Accuracy *)

Definition Qnat (n : nat) : Q := inject_Z (Z.of_nat n).

Definition computeAccuracy (w : World) : Q :=
  let denom := Qmax 1 (Qnat (totalJudged (stats w))) in
  let num := Qnat (p (stats w)) * 1.0 + Qnat (g (stats w)) * 0.75
             + Qnat (o (stats w)) * 0.45 in
  num / denom.

Definition countNotesLeft (w : World) : nat :=
  List.length (filter (fun n => NoteState_eqb (state n) pending) (noteStates w)).

(** ** Timing *)

Definition getSongTimeMs (now : Q) (w : World) : Q :=
  if negb (running (clock w)) then 0
  else if paused (clock w) then
    pauseAtPerfMs (clock w) - startAtPerfMs (clock w) - pausedTotalMs (clock w)
  else now - startAtPerfMs (clock w) - pausedTotalMs (clock w).

(** ** Judgment *)

Definition judge (deltaMs : Q) : Judgment :=
  let a := Qabs deltaMs in
  if Qleb a CONFIG.PERFECT_MS then JP
  else if Qleb a CONFIG.GOOD_MS then JG
  else if Qleb a CONFIG.OK_MS then JO
  else JO.

(** ** Build / Reset *)

(** [rebuildRuntimeNotes()]: a fresh runtime note for every note of the
    chart.  [None] is the [TypeError] of reading [STATE.beatmap.notes] while
    [STATE.beatmap] is [null]. *)
Definition rebuildRuntimeNotes (w : World) : option World :=
  let minWH := inject_Z (Z.min (cssW w) (cssH w)) in
  let safePad := Qmax 26 (minWH * 0.08) in
  let left := safePad in
  let right := inject_Z (cssW w) - safePad in
  let top := safePad in
  let bottom := inject_Z (cssH w) - safePad in
  let baseR := Qmax 18 (Qmin CONFIG.BASE_RADIUS_PX (minWH * 0.055)) in
  match beatmap w with
  | None => None
  | Some bm =>
      Some (set_noteStates
              (map (fun n =>
                      let px := lerp left right (clamp (xN n) 0 1) in
                      let py := lerp top bottom (clamp (yN n) 0 1) in
                      makeRuntimeNote n px py baseR)
                   (notes bm))
              w)
  end.

(** The bounding rectangle of the canvas and [window.devicePixelRatio]
    ([None] when it is undefined). *)
Record Viewport : Type := mkViewport {
  rect_left : Q;
  rect_top : Q;
  rect_width : Q;
  rect_height : Q;
  devicePixelRatio : option Q
}.

(** [window.devicePixelRatio || 1] *)
Definition dprOr1 (d : option Q) : Q :=
  match d with
  | Some v => if Qneqb v 0 then v else 1
  | None => 1
  end.

(** [resizeCanvas()], the handler of the window's ["resize"] event. *)
Definition resizeCanvas (vp : Viewport) (w : World) : option World :=
  let cw := Z.max 1 (Qfloor (rect_width vp)) in
  let ch := Z.max 1 (Qfloor (rect_height vp)) in
  let d := Qmax 1 (Qmin 2.5 (dprOr1 (devicePixelRatio vp))) in
  let w1 := set_view cw ch d w in
  match beatmap w1 with
  | Some _ => rebuildRuntimeNotes w1
  | None => Some w1
  end.

(** [loadBeatmap()]; [bm] is what [buildBeatmap()] returns. *)
Definition loadBeatmap (bm : Beatmap) (nowT : Q) (w : World) : option World :=
  match rebuildRuntimeNotes (set_beatmap (Some bm) w) with
  | Some w1 => Some (toast nowT (TLoaded (title bm) (List.length (notes bm))) w1)
  | None => None
  end.

Definition resetGameState (w : World) : option World :=
  let w1 := set_clock (mkClock false false false 0 0 0) w in
  let w2 := set_stats (mkStats 0 0 0 0 0 0 0 0 0) w1 in
  (* Reset notes *)
  rebuildRuntimeNotes w2.

(** ** Hit resolution *)

(** An entry of [candidates]: [{ n, absDelta, delta, d2 }].  [n] is a
    reference to a note object of [STATE.noteStates]: the position of the
    object in the array, together with what the object holds when it is
    collected (no note is written between the collection and the pick). *)
Module Cand.
Record t : Type := mk {
  n : nat * RuntimeNote;
  absDelta : Q;
  delta : Q;
  d2 : Q
}.
End Cand.

(** The [for] loop of [attemptHit] over the notes from position [i] on. *)
Fixpoint collectCandidates (t cx cy : Q) (i : nat) (ns : list RuntimeNote)
  : list Cand.t :=
  match ns with
  | [] => []
  | n :: rest =>
      if negb (NoteState_eqb (state n) pending) then
        collectCandidates t cx cy (S i) rest
      else
        let delta := t - tMs n in
        if Qgtb (Qabs delta) CONFIG.HIT_WINDOW_MS then
          collectCandidates t cx cy (S i) rest
        else
          let inside := Qleb (dist2 cx cy (x n) (y n)) (r n * r n) in
          if negb inside then collectCandidates t cx cy (S i) rest
          else
            Cand.mk (i, n) (Qabs delta) delta (dist2 cx cy (x n) (y n))
              :: collectCandidates t cx cy (S i) rest
  end.

(** The comparator handed to [candidates.sort]. *)
Definition compareCandidates (a b : Cand.t) : Q :=
  if Qneqb (Cand.absDelta a) (Cand.absDelta b)
  then Cand.absDelta a - Cand.absDelta b
  else Cand.d2 a - Cand.d2 b.

(** [Array.prototype.sort] with a comparator.  The sort is stable, and the
    comparator of [attemptHit] is a consistent one, so the sorted array is
    determined by the specification of the language; it is computed here by
    a stable insertion sort: an element goes before the first element of the
    sorted rest that it does not compare greater than. *)
Section Sort.
Context {A : Type} (cmp : A -> A -> Q).

Fixpoint sort_insert (a : A) (l : list A) : list A :=
  match l with
  | [] => [a]
  | b :: l' => if Qleb (cmp a b) 0 then a :: b :: l' else b :: sort_insert a l'
  end.

Definition array_sort (l : list A) : list A := fold_right sort_insert [] l.
End Sort.

(** Writes [f] of the object at position [i]; the other objects are kept. *)
Fixpoint update_note (i : nat) (f : RuntimeNote -> RuntimeNote)
  (ns : list RuntimeNote) : list RuntimeNote :=
  match ns, i with
  | [], _ => []
  | n :: rest, O => f n :: rest
  | n :: rest, S i' => n :: update_note i' f rest
  end.

(** [applyJudgment(note, judgedAtMs, deltaMs, judgment)]; [note] is the
    position of the note object, [nowT] what [nowMs()] returns in [toast]. *)
Definition applyJudgment (note : nat) (judgedAt delta : Q) (j : Judgment)
  (nowT : Q) (w : World) : World :=
  let ns :=
    update_note note
      (fun n => mkRuntimeNote (tMs n) (x n) (y n) (r n)
                  hit (Some judgedAt) (Some delta) (Some j))
      (noteStates w) in
  let st := stats w in
  let totalJudged1 := S (totalJudged st) in
  let totalHit1 := S (totalHit st) in
  (* Combo *)
  let combo1 := S (combo st) in
  let maxCombo1 := Nat.max (maxCombo st) combo1 in
  let '(p1, g1, o1, base, msg) :=
    match j with
    | JP => (S (p st), g st, o st, CONFIG.SCORE_PERFECT, TJudged JP delta)
    | JG => (p st, S (g st), o st, CONFIG.SCORE_GOOD, TJudged JG delta)
    | _ => (p st, g st, S (o st), CONFIG.SCORE_OK, TJudged JO delta)
    end in
  let mult := 1 + (Qnat combo1 - 1) * CONFIG.COMBO_BONUS in
  let score1 := score st + base * mult in
  toast nowT msg
    (set_stats
       (mkStats score1 combo1 maxCombo1 p1 g1 o1 (m st) totalJudged1 totalHit1)
       (set_noteStates ns w)).

(** [attemptHit(cx, cy)]; [now] is what [nowMs()] returns in
    [getSongTimeMs], [nowT] what it returns in [toast]. *)
Definition attemptHit (now nowT : Q) (cx cy : Q) (w : World) : World :=
  let t := getSongTimeMs now w in
  let candidates := collectCandidates t cx cy 0 (noteStates w) in
  if (List.length candidates =? 0)%nat then
    toast nowT TNoHittable w
  else
    match array_sort compareCandidates candidates with
    | c :: _ =>
        let pick := Cand.n c in
        let delta := t - tMs (snd pick) in
        let j := judge delta in
        applyJudgment (fst pick) t delta j nowT w
    | [] => w (* not reached: sorting keeps the length *)
    end.

(** The local [pick] of [attemptHit], when the function gets that far. *)
Definition attemptHit_pick (now : Q) (cx cy : Q) (w : World)
  : option (nat * RuntimeNote) :=
  let t := getSongTimeMs now w in
  let candidates := collectCandidates t cx cy 0 (noteStates w) in
  if (List.length candidates =? 0)%nat then None
  else
    match array_sort compareCandidates candidates with
    | c :: _ => Some (Cand.n c)
    | [] => None
    end.

(** ** Miss processing *)

(** The [for] loop of [processAutoMisses] over the notes [ns], from the
    score fields [st]. *)
Fixpoint sweepNotes (currentMs : Q) (ns : list RuntimeNote) (st : Stats)
  : list RuntimeNote * Stats :=
  match ns with
  | [] => ([], st)
  | n :: rest =>
      if negb (NoteState_eqb (state n) pending) then
        let '(rest', st') := sweepNotes currentMs rest st in (n :: rest', st')
      else if Qgtb currentMs (tMs n + CONFIG.HIT_WINDOW_MS) then
        let n' := mkRuntimeNote (tMs n) (x n) (y n) (r n)
                    miss (Some currentMs) (Some (currentMs - tMs n)) (Some JM) in
        let st1 := mkStats (score st) 0 (maxCombo st) (p st) (g st) (o st)
                     (S (m st)) (S (totalJudged st)) (totalHit st) in
        let '(rest', st') := sweepNotes currentMs rest st1 in (n' :: rest', st')
      else
        let '(rest', st') := sweepNotes currentMs rest st in (n :: rest', st')
  end.

Definition processAutoMisses (currentMs : Q) (w : World) : World :=
  let '(ns, st) := sweepNotes currentMs (noteStates w) (stats w) in
  set_stats st (set_noteStates ns w).

(** ** Main loop *)

(** One call of [tick()]: the sweep, the end condition and [updateToast]
    ([render] and [updateHud] only read the state).  [None] is the
    [TypeError] of reading [last.tMs] when there is no note. *)
Definition tick (now nowT nowU : Q) (w : World) : option World :=
  let t := getSongTimeMs now w in
  if running (clock w) && negb (paused (clock w)) && negb (ended (clock w)) then
    let w1 := processAutoMisses t w in
    match nth_error (noteStates w1) (List.length (noteStates w1) - 1) with
    | None => None
    | Some last =>
        let endAt := tMs last + CONFIG.HIT_WINDOW_MS + CONFIG.AFTER_MS + 200 in
        if Qgtb t endAt && (countNotesLeft w1 =? 0)%nat then
          let c := clock w1 in
          let w2 := set_clock (mkClock (running c) (paused c) true (startAtPerfMs c)
                                 (pauseAtPerfMs c) (pausedTotalMs c)) w1 in
          Some (updateToast nowU
                  (toast nowT (TFinished (maxCombo (stats w2)) (computeAccuracy w2)) w2))
        else Some (updateToast nowU w1)
    end
  else Some (updateToast nowU w).

(** ** Controls *)

Definition startGame (now nowT : Q) (w : World) : option World :=
  match resetGameState w with
  | None => None
  | Some w1 =>
      Some (toast nowT TGo (set_clock (mkClock true false false now
                                         (pauseAtPerfMs (clock w1)) 0) w1))
  end.

Definition restartGame (now nowT : Q) (w : World) : option World :=
  startGame now nowT w.

Definition togglePause (now nowT : Q) (w : World) : World :=
  let c := clock w in
  if negb (running c) || ended c then w
  else if negb (paused c) then
    toast nowT TPaused
      (set_clock (mkClock (running c) true (ended c) (startAtPerfMs c)
                    now (pausedTotalMs c)) w)
  else
    let resumeAt := now in
    toast nowT TResume
      (set_clock (mkClock (running c) false (ended c) (startAtPerfMs c)
                    (pauseAtPerfMs c)
                    (pausedTotalMs c + (resumeAt - pauseAtPerfMs c))) w).

(** ** Input *)

Record MouseEvent : Type := mkMouseEvent {
  button : Z;
  clientX : Q;
  clientY : Q
}.

(** [e.changedTouches[0]] of a touch event. *)
Record TouchEvent : Type := mkTouchEvent {
  touchX : Q;
  touchY : Q
}.

Record KeyEvent : Type := mkKeyEvent {
  repeat : bool;
  code : string
}.

Definition canvasPointFromEvent (vp : Viewport) (evt : MouseEvent) : Q * Q :=
  (clientX evt - rect_left vp, clientY evt - rect_top vp).

Definition on_mousemove (vp : Viewport) (e : MouseEvent) (w : World) : World :=
  let pt := canvasPointFromEvent vp e in
  set_cursor (fst pt) (snd pt) w.

Definition on_mousedown (vp : Viewport) (e : MouseEvent) (now nowT : Q)
  (w : World) : World :=
  if negb (button e =? 0)%Z then w
  else if negb (running (clock w)) then w
  else if paused (clock w) || ended (clock w) then w
  else
    let pt := canvasPointFromEvent vp e in
    let w1 := set_cursor (fst pt) (snd pt) w in
    attemptHit now nowT (cursorX w1) (cursorY w1) w1.

Definition on_touchstart (vp : Viewport) (e : TouchEvent) (now nowT : Q)
  (w : World) : World :=
  if negb (running (clock w)) then w
  else if paused (clock w) || ended (clock w) then w
  else
    let tx := touchX e - rect_left vp in
    let ty := touchY e - rect_top vp in
    let w1 := set_cursor tx ty w in
    attemptHit now nowT tx ty w1.

(** The ["keydown"] handler: [E] is a click at the cursor, [Space] toggles
    the pause. *)
Definition on_keydown (e : KeyEvent) (now nowT : Q) (w : World) : World :=
  if repeat e then w
  else if String.eqb (code e) CONFIG.KEY_HIT then
    if negb (running (clock w)) then w
    else if paused (clock w) || ended (clock w) then w
    else
      let w1 := attemptHit now nowT (cursorX w) (cursorY w) w in
      if String.eqb (code e) "Space" then
        if negb (running (clock w1)) || ended (clock w1) then w1
        else togglePause now nowT w1
      else w1
  else if String.eqb (code e) "Space" then
    if negb (running (clock w)) || ended (clock w) then w
    else togglePause now nowT w
  else w.

(** ** Rendering *)

(** [a < b] *)
Definition Qltb (a b : Q) : bool := negb (Qle_bool b a).

(** The colour of the outline of a bubble: pending, hit with ["P"], hit
    with ["G"], any other hit, miss. *)
Inductive Stroke : Type :=
| strokePending | strokePerfect | strokeGood | strokeOk | strokeMiss.

(** What [drawNote] draws, in the order of the drawing, each with the
    [globalAlpha] it is drawn at: the approach ring, the bubble, the inner
    dot and the label (["MISS"] for ["M"], the judgment itself otherwise). *)
Inductive DrawCmd : Type :=
| ApproachRing (cx cy radius alpha : Q)
| Bubble (cx cy radius alpha : Q) (stroke : Stroke)
| InnerDot (cx cy radius alpha : Q)
| Label (text : option Judgment) (cx cy alpha : Q).

(** [n.judgedAtMs] in a subtraction: [null] counts as 0. *)
Definition numberOf (v : option Q) : Q :=
  match v with
  | Some q => q
  | None => 0
  end.

(** [drawNote(n, currentMs)]. *)
Definition drawNote (n : RuntimeNote) (currentMs : Q) : list DrawCmd :=
  let appearAt := tMs n - CONFIG.PREEMPT_MS in
  let vanishAt := tMs n + CONFIG.HIT_WINDOW_MS + CONFIG.AFTER_MS in
  if Qltb currentMs appearAt then []
  else if Qgtb currentMs vanishAt then []
  else
    (* Determine alpha and approach progress *)
    let alpha :=
      match state n with
      | pending =>
          (* fade in during preempt *)
          let preT :=
            clamp ((currentMs - appearAt) / CONFIG.PREEMPT_MS) 0 1 in
          clamp preT 0.15 1
      | _ =>
          let dt := currentMs - numberOf (judgedAtMs n) in
          clamp (1 - dt / CONFIG.AFTER_MS) 0 1
      end in
    (* Approach ring: only while pending and before hit time *)
    let ring :=
      match state n with
      | pending =>
          let until := tMs n - currentMs in
          if Qleb 0 until && Qleb until CONFIG.PREEMPT_MS then
            let t := clamp (1 - until / CONFIG.PREEMPT_MS) 0 1 in
            let approachR :=
              lerp (r n * CONFIG.APPROACH_RING_SCALE) (r n) t in
            [ApproachRing (x n) (y n) approachR (alpha * 0.65)]
          else []
      | _ => []
      end in
    (* Bubble base; if judged, color hint *)
    let stroke :=
      match state n with
      | hit =>
          match judgment n with
          | Some JP => strokePerfect
          | Some JG => strokeGood
          | _ => strokeOk
          end
      | miss => strokeMiss
      | pending => strokePending
      end in
    (* Timing hint: small text during judgement fade *)
    let label :=
      if negb (NoteState_eqb (state n) pending) && Qgtb alpha 0.1
      then [Label (judgment n) (x n) (y n) alpha]
      else [] in
    ring
    ++ [Bubble (x n) (y n) (r n) alpha stroke;
        InnerDot (x n) (y n) (Qmax 3 (r n * 0.10)) (alpha * 0.85)]
    ++ label.

(** The [globalAlpha] of a drawing. *)
Definition cmd_alpha (c : DrawCmd) : Q :=
  match c with
  | ApproachRing _ _ _ a | Bubble _ _ _ a _ | InnerDot _ _ _ a
  | Label _ _ _ a => a
  end.

(** ** Deterministic pseudo-random numbers *)

(** The conversions of the bit operators: [ToInt32] and [ToUint32]. *)
Definition toInt32 (z : Z) : Z := ((z + 2 ^ 31) mod 2 ^ 32 - 2 ^ 31)%Z.
Definition toUint32 (z : Z) : Z := (z mod 2 ^ 32)%Z.

(** [Math.imul(a, b)], [a ^ b], [a | b] and [a >>> k]. *)
Definition imul (a b : Z) : Z := toInt32 (toInt32 a * toInt32 b).
Definition xor32 (a b : Z) : Z := toInt32 (Z.lxor (toInt32 a) (toInt32 b)).
Definition or32 (a b : Z) : Z := toInt32 (Z.lor (toInt32 a) (toInt32 b)).
Definition ushr (a k : Z) : Z := Z.shiftr (toUint32 a) k.

(** The captured variable [seed] is a double.  Seeded with an integer,
    below [2^1024] in absolute value, it holds integers only: the double
    nearest to the integer it is seeded with, and after
    [seed += 0x6D2B79F5] the double nearest to the sum, ties going to the
    even significand.  Integers are exact up to [2^53]; for
    [2^(52+k) <= |z| < 2^(53+k)] the doubles are [2^k] apart.  (The sum of a
    finite double and of [0x6D2B79F5] never overflows.) *)
Definition roundDouble (z : Z) : Z :=
  let a := Z.abs z in
  if (a <? 2 ^ 53)%Z then z
  else
    let k := (Z.log2 a - 52)%Z in
    let q := (a / 2 ^ k)%Z in
    let rem := (a mod 2 ^ k)%Z in
    let q' :=
      if (2 * rem <? 2 ^ k)%Z then q
      else if (2 ^ k <? 2 * rem)%Z then (q + 1)%Z
      else if Z.even q then q else (q + 1)%Z in
    (Z.sgn z * (q' * 2 ^ k))%Z.

(** One call of the function [mulberry32(seed)] returns, with the integer
    [seed] in the captured variable: the number returned and the new value
    of the variable. *)
Definition mulberry32 (seed : Z) : Q * Z :=
  let seed1 := roundDouble (roundDouble seed + 0x6D2B79F5) in
  let t := seed1 in
  let t := imul (xor32 t (ushr t 15)) (or32 t 1) in
  let t := xor32 t (t + imul (xor32 t (ushr t 7)) (or32 t 61))%Z in
  (inject_Z (ushr (xor32 t (ushr t 14)) 0) / 4294967296, seed1).


(** ** The chart *)

(** [buildBeatmap()].  [Math.sin], [Math.cos] and [Math.PI] are parameters:
    only the positions of the notes depend on them. *)
Section Chart.
Variables (sin cos : Q -> Q) (PI : Q).

(** The notes a [for (let i = 0; i < count; i++)] loop pushes. *)
Definition pushed (count : nat) (note : Q -> NoteDef) : list NoteDef :=
  map (fun i => note (Qnat i)) (seq 0 count).

Definition buildBeatmap : Beatmap :=
  let t := 1200 in
  (* Section A: horizontal wave *)
  let sectionA :=
    let count := 18%nat in
    let step := 420 in
    pushed count (fun i =>
      let x := lerp 0.12 0.88 (i / (Qnat count - 1)) in
      let y := 0.50 + 0.22 * sin (i * 0.55) in
      mkNoteDef (t + i * step) x y None) in
  let t := t + Qnat 18 * 420 + 600 in
  (* Section B: ring / circular formation *)
  let sectionB :=
    let center := (0.50, 0.52) in
    let ringR := 0.26 in
    let count := 14%nat in
    let step := 300 in
    let startAngle := - PI / 2 in
    pushed count (fun i =>
      let a := startAngle + i * (2 * PI / Qnat count) in
      let x := fst center + ringR * cos a in
      let y := snd center + ringR * sin a in
      mkNoteDef (t + i * step) x y None) in
  let t := t + Qnat 14 * 300 + 450 in
  (* Section C: chord hits *)
  let chordT := t in
  let sectionC :=
    [mkNoteDef chordT 0.22 0.30 None;
     mkNoteDef chordT 0.78 0.30 None;
     mkNoteDef chordT 0.22 0.74 None;
     mkNoteDef chordT 0.78 0.74 None]
    ++ (let step := 340 in
        pushed 10 (fun i =>
          let x := 0.18 + 0.64 * (i / 9) in
          let y := 0.50 + 0.18 * sin (i * 0.9 + 1.2) in
          mkNoteDef (chordT + 620 + i * step) x y None)) in
  let t := chordT + 620 + 10 * 340 + 500 in
  (* Section D: double chords, then ending ring *)
  let sectionD1 :=
    let step := 320 in
    flat_map (fun i =>
      let tt := t + i * step in
      let xL := 0.30 + 0.10 * sin (i * 0.6) in
      let xR := 0.70 + 0.10 * sin (i * 0.6 + 1.4) in
      let y := 0.50 + 0.22 * cos (i * 0.55) in
      [mkNoteDef tt xL y None; mkNoteDef tt xR y None])
      (map Qnat (seq 0 8)) in
  let t := t + 8 * 320 + 520 in
  let sectionD2 :=
    let center := (0.50, 0.52) in
    let ringR := 0.24 in
    let count := 10%nat in
    let step2 := 260 in
    pushed count (fun i =>
      let a := (PI / 2) + i * (2 * PI / Qnat count) in
      mkNoteDef (t + i * step2)
        (fst center + ringR * cos a) (snd center + ringR * sin a) None) in
  let t := t + Qnat 10 * 260 + 450 in
  (* Sort by time *)
  let sorted :=
    array_sort (fun a b => def_tMs a - def_tMs b)
      (sectionA ++ sectionB ++ sectionC ++ sectionD1 ++ sectionD2) in
  mkBeatmap "Demo Deterministic Chart" (t + 1200) sorted.
End Chart.

(** ** Specification-side definitions and scenarios *)

(** [a] may stand before [b] in a stably sorted array: it does not compare
    greater, and if the two compare equal it came first. *)
Definition stable_before {A : Type} (cmp : A -> A -> Q) (rank : A -> nat)
  (a b : A) : Prop :=
  cmp a b <= 0 /\ (cmp b a <= 0 -> (rank a < rank b)%nat).

(** [l'] is a stable sort of [l] by [cmp]. *)
Definition stable_sorted {A : Type} (cmp : A -> A -> Q) (rank : A -> nat)
  (l l' : list A) : Prop :=
  Permutation l l' /\ StronglySorted (stable_before cmp rank) l'.

(** The elements of [l] are in the order of their positions [rank] in the
    array before the sort. *)
Inductive ranked {A : Type} (rank : A -> nat) : list A -> Prop :=
| ranked_nil : ranked rank []
| ranked_cons a l :
    (forall b, In b l -> (rank a < rank b)%nat) -> ranked rank l ->
    ranked rank (a :: l).

(** The counters are consistent: every judged note is counted in one tier. *)
Definition counts_consistent (st : Stats) : Prop :=
  (p st + g st + o st + m st = totalJudged st)%nat.

(** The base score of a tier, as the specification lists it. *)
Definition spec_baseScore (j : Judgment) : Q :=
  match j with
  | JP => 300
  | JG => 150
  | JO => 60
  | JM => 0
  end.

(** The counter of a tier. *)
Definition tierCount (j : Judgment) (st : Stats) : nat :=
  match j with
  | JP => p st
  | JG => g st
  | JO => o st
  | JM => m st
  end.

Definition zeroStats : Stats := mkStats 0 0 0 0 0 0 0 0 0.

(** The filter of the resolver as the specification words it: the note is
    pending, [|time - note.time| <= hitWindowMs] and the squared distance to
    the point is at most the squared radius. *)
Definition spec_eligible (t cx cy : Q) (n : RuntimeNote) : bool :=
  NoteState_eqb (state n) pending
  && Qleb (Qabs (t - tMs n)) 160
  && Qleb (dist2 cx cy (x n) (y n)) (r n * r n).

(** The tie-break key [(|time - note.time|, squaredDistance(point, position))]. *)
Definition spec_key (t cx cy : Q) (n : RuntimeNote) : Q * Q :=
  (Qabs (t - tMs n), dist2 cx cy (x n) (y n)).

(** Strictly smaller in the lexicographic order. *)
Definition lex_lt (a b : Q * Q) : Prop :=
  fst a < fst b \/ (fst a == fst b /\ snd a < snd b).

(** Equal keys. *)
Definition key_eq (a b : Q * Q) : Prop := fst a == fst b /\ snd a == snd b.

(** The candidate collected for the note [n] at position [i]. *)
Definition candOf (t cx cy : Q) (i : nat) (n : RuntimeNote) : Cand.t :=
  Cand.mk (i, n) (Qabs (t - tMs n)) (t - tMs n) (dist2 cx cy (x n) (y n)).

(** A note the sweep has to turn into a miss: pending, and the time is
    past [note.time + hitWindowMs]. *)
Definition spec_expired (t : Q) (n : RuntimeNote) : bool :=
  NoteState_eqb (state n) pending && Qgtb t (tMs n + 160).

(** The note [n] once swept at [t]. *)
Definition spec_missed (t : Q) (n : RuntimeNote) : RuntimeNote :=
  mkRuntimeNote (tMs n) (x n) (y n) (r n)
    miss (Some t) (Some (t - tMs n)) (Some JM).

Definition spec_sweepNote (t : Q) (n : RuntimeNote) : RuntimeNote :=
  if spec_expired t n then spec_missed t n else n.

(** The score fields after [k] notes were swept. *)
Definition spec_sweepStats (k : nat) (st : Stats) : Stats :=
  mkStats (score st) (if (k =? 0)%nat then combo st else 0%nat) (maxCombo st)
    (p st) (g st) (o st) (m st + k) (totalJudged st + k) (totalHit st).

(** [STATE] and the module-level variables as the script declares them. *)
Definition initialWorld : World :=
  mkWorld (mkClock false false false 0 0 0) 0 0 zeroStats 0 None [] 0 0 1
    None false.

(** [init()], up to the registration of the listeners. *)
Definition init (vp : Viewport) (bm : Beatmap) (nowT : Q) : option World :=
  match resizeCanvas vp initialWorld with
  | None => None
  | Some w1 =>
      match loadBeatmap bm nowT w1 with
      | None => None
      | Some w2 =>
          match resetGameState w2 with
          | None => None
          | Some w3 =>
              Some (set_cursor (inject_Z (cssW w3) * 0.5)
                      (inject_Z (cssH w3) * 0.5) w3)
          end
      end
  end.

(** A note as [makeRuntimeNote] leaves it. *)
Definition fresh_note (n : RuntimeNote) : Prop :=
  state n = pending /\ judgedAtMs n = None /\ deltaMs n = None
  /\ judgment n = None.

(** A chart of one note at 1000 ms in the middle of the canvas. *)
Definition oneNoteChart : Beatmap :=
  mkBeatmap "one note" 2200 [mkNoteDef 1000 0.5 0.5 None].

Definition viewport800 : Viewport := mkViewport 0 0 800 600 (Some 1).
Definition viewport1024 : Viewport := mkViewport 0 0 1024 768 (Some 1).

(** The events the page reacts to: the listeners registered by the script,
    the buttons and the animation frame.  Each carries what the handler reads
    from the event and from the clock. *)
Inductive Event : Type :=
| EvResize (vp : Viewport)
| EvMouseMove (vp : Viewport) (e : MouseEvent)
| EvMouseDown (vp : Viewport) (e : MouseEvent) (now nowT : Q)
| EvTouchStart (vp : Viewport) (e : TouchEvent) (now nowT : Q)
| EvKeyDown (e : KeyEvent) (now nowT : Q)
| EvStart (now nowT : Q)
| EvRestart (now nowT : Q)
| EvPause (now nowT : Q)
| EvFrame (now nowT nowU : Q).

Definition dispatch (ev : Event) (w : World) : option World :=
  match ev with
  | EvResize vp => resizeCanvas vp w
  | EvMouseMove vp e => Some (on_mousemove vp e w)
  | EvMouseDown vp e now nowT => Some (on_mousedown vp e now nowT w)
  | EvTouchStart vp e now nowT => Some (on_touchstart vp e now nowT w)
  | EvKeyDown e now nowT => Some (on_keydown e now nowT w)
  | EvStart now nowT => startGame now nowT w
  | EvRestart now nowT => restartGame now nowT w
  | EvPause now nowT => Some (togglePause now nowT w)
  | EvFrame now nowT nowU => tick now nowT nowU w
  end.

(** The states of a session over the chart [bm]: what [init] leaves, and
    what the handlers make of it. *)
Inductive reachable (bm : Beatmap) : World -> Prop :=
| reach_init vp nowT w : init vp bm nowT = Some w -> reachable bm w
| reach_step ev w w' :
    reachable bm w -> dispatch ev w = Some w' -> reachable bm w'.

(** The judgment fields of a note agree with its state. *)
Definition note_wf (n : RuntimeNote) : Prop :=
  match state n with
  | pending => judgedAtMs n = None /\ deltaMs n = None /\ judgment n = None
  | hit =>
      (judgment n = Some JP \/ judgment n = Some JG \/ judgment n = Some JO)
      /\ judgedAtMs n <> None /\ deltaMs n <> None
  | miss => judgment n = Some JM /\ judgedAtMs n <> None /\ deltaMs n <> None
  end.

Definition stats_wf (st : Stats) : Prop :=
  counts_consistent st /\
  (totalHit st = p st + g st + o st)%nat /\
  (combo st <= maxCombo st)%nat.

(** What holds in every state of a session over the chart [bm]. *)
Definition session_inv (bm : Beatmap) (w : World) : Prop :=
  beatmap w = Some bm /\
  stats_wf (stats w) /\
  Forall note_wf (noteStates w) /\
  map tMs (noteStates w) = map def_tMs (notes bm).

(** What an operation leaves, the declared state standing for an error. *)
Definition orInitial (o : option World) : World :=
  match o with
  | Some w => w
  | None => initialWorld
  end.

(** The page is loaded with the chart [bm] on a canvas of 800 by 600 and
    the game is started at wall-clock time 0. *)
Definition started (bm : Beatmap) : option World :=
  match init viewport800 bm 0 with
  | None => None
  | Some w0 => startGame 0 0 w0
  end.

Definition oneNoteStarted : World :=
  Eval vm_compute in orInitial (started oneNoteChart).

(** The one-note chart started and its note clicked at 1010 ms. *)
Definition oneNoteHit : option World :=
  match started oneNoteChart with
  | None => None
  | Some w1 => Some (on_mousedown viewport800 (mkMouseEvent 0 400 300)
                       1010 1010 w1)
  end.

(** A chord of three notes at 2000 ms: one out of reach of the cursor
    [(241.6, 300)], then two at the same distance of it. *)
Definition chordChart : Beatmap :=
  mkBeatmap "chord" 3200
    [mkNoteDef 2000 0.9 0.5 None;
     mkNoteDef 2000 0.25 0.5 None;
     mkNoteDef 2000 0.3 0.5 None].

Definition chordWorld : World :=
  Eval vm_compute in orInitial (started chordChart).

Definition pendingDefault : RuntimeNote :=
  mkRuntimeNote 0 0 0 0 pending None None None.

Definition chordA : RuntimeNote :=
  Eval vm_compute in nth 1 (noteStates chordWorld) pendingDefault.
Definition chordB : RuntimeNote :=
  Eval vm_compute in nth 2 (noteStates chordWorld) pendingDefault.

(** The run of the chord chart once no note was hit and the frame at
    2621 ms has ended it. *)
Definition endedWorld : World :=
  Eval vm_compute in orInitial (tick 2621 2621 2621 chordWorld).

(** Three notes at 400, 500 and 2000 ms; the first one is clicked at
    410 ms. *)
Definition threeChart : Beatmap :=
  mkBeatmap "three" 3200
    [mkNoteDef 400 0.2 0.2 None;
     mkNoteDef 500 0.5 0.5 None;
     mkNoteDef 2000 0.8 0.8 None].

Definition sweepWorld : World :=
  Eval vm_compute in
    on_mousedown viewport800 (mkMouseEvent 0 188.8 148.8) 410 410
      (orInitial (started threeChart)).

Definition sweepHit : RuntimeNote :=
  Eval vm_compute in nth 0 (noteStates sweepWorld) pendingDefault.
Definition sweepDue : RuntimeNote :=
  Eval vm_compute in nth 1 (noteStates sweepWorld) pendingDefault.
Definition sweepLater : RuntimeNote :=
  Eval vm_compute in nth 2 (noteStates sweepWorld) pendingDefault.

(** The runtime notes of the scenarios of the specification. *)
Definition noteA : RuntimeNote :=
  mkRuntimeNote 2000 100 100 34 pending None None None.
Definition noteFar : RuntimeNote :=
  mkRuntimeNote 2000 700 100 34 pending None None None.
Definition noteEarly : RuntimeNote :=
  mkRuntimeNote 500 300 300 34 pending None None None.

(** A running game started at wall-clock time 0 over the notes [ns]. *)
Definition runningWorld (ns : list RuntimeNote) (st : Stats) : World :=
  mkWorld (mkClock true false false 0 0 0) 0 0 st 0 None ns 800 600 1
    None false.

(** A chart without notes, loaded and started. *)
Definition emptyChart : Beatmap := mkBeatmap "none" 0 [].

Definition emptyLoaded : World :=
  Eval vm_compute in orInitial (init viewport800 emptyChart 0).

Definition emptyStarted : World :=
  Eval vm_compute in orInitial (startGame 0 0 emptyLoaded).

(** The times [l] are in ascending order, ties allowed. *)
Fixpoint ascendingb (l : list Q) : bool :=
  match l with
  | [] => true
  | a :: l' => forallb (Qle_bool a) l' && ascendingb l'
  end.

(** The chart of the game with a flat sine and cosine, loaded and started. *)
Definition flatChart : Beatmap := buildBeatmap (fun _ => 0) (fun _ => 0) 3.

Definition flatStarted : World :=
  Eval vm_compute in orInitial (started flatChart).

(** ** Transitions of notes and of score fields *)

(** The events that build the runtime notes anew. *)
Definition rebuilds (ev : Event) : bool :=
  match ev with
  | EvResize _ | EvStart _ _ | EvRestart _ _ => true
  | _ => false
  end.

(** The note [n] once hit at song time [t]. *)
Definition spec_hitNote (t : Q) (n : RuntimeNote) : RuntimeNote :=
  mkRuntimeNote (tMs n) (x n) (y n) (r n)
    hit (Some t) (Some (t - tMs n)) (Some (judge (t - tMs n))).

(** What an event that does not rebuild the notes can do to one note:
    nothing, a hit while the note is eligible, a miss once it is overdue. *)
Inductive note_step (n : RuntimeNote) : RuntimeNote -> Prop :=
| note_same : note_step n n
| note_hit t cx cy :
    spec_eligible t cx cy n = true -> note_step n (spec_hitNote t n)
| note_miss t :
    spec_expired t n = true -> note_step n (spec_missed t n).

(** The score fields after a hit of tier [j]. *)
Definition spec_hitStats (j : Judgment) (st : Stats) : Stats :=
  mkStats
    (score st + spec_baseScore j * (1 + (Qnat (S (combo st)) - 1) * 0.06))
    (S (combo st)) (Nat.max (maxCombo st) (S (combo st)))
    (match j with JP => S (p st) | _ => p st end)
    (match j with JG => S (g st) | _ => g st end)
    (match j with JO => S (o st) | _ => o st end)
    (m st) (S (totalJudged st)) (S (totalHit st)).

(** The events that start a run. *)
Definition is_start (ev : Event) : bool :=
  match ev with
  | EvStart _ _ | EvRestart _ _ => true
  | _ => false
  end.

Definition is_resize (ev : Event) : bool :=
  match ev with
  | EvResize _ => true
  | _ => false
  end.

(** What an event that does not start a run can do to the score fields:
    nothing, a hit of a tier other than Miss, or a sweep of [k] notes. *)
Inductive stats_step (st : Stats) : Stats -> Prop :=
| stats_same : stats_step st st
| stats_hit j : j <> JM -> stats_step st (spec_hitStats j st)
| stats_sweep k : stats_step st (spec_sweepStats k st).

(** The timing a judged note records: a hit within the window with the
    tier of its offset, a miss past the window; the offset is the judgment
    time minus the time of the note. *)
Definition note_timing (n : RuntimeNote) : Prop :=
  match state n with
  | pending => True
  | hit =>
      exists t, judgedAtMs n = Some t /\ deltaMs n = Some (t - tMs n) /\
                Qabs (t - tMs n) <= 160 /\
                judgment n = Some (judge (t - tMs n))
  | miss =>
      exists t, judgedAtMs n = Some t /\ deltaMs n = Some (t - tMs n) /\
                tMs n + 160 < t /\ judgment n = Some JM
  end.

(** Every note is pending or counted as judged. *)
Definition accounted (w : World) : Prop :=
  (totalJudged (stats w) + countNotesLeft w = List.length (noteStates w))%nat.

(** Bounds that tie the score fields to one another. *)
Definition stats_bounds (st : Stats) : Prop :=
  (combo st <= maxCombo st)%nat /\ (maxCombo st <= totalHit st)%nat /\
  (totalHit st = p st + g st + o st)%nat /\
  (totalJudged st = totalHit st + m st)%nat /\
  300 * Qnat (p st) + 150 * Qnat (g st) + 60 * Qnat (o st) <= score st.

(** * Properties *)

(** ** Comparisons *)

Lemma NoteState_eqb_eq a b : NoteState_eqb a b = true <-> a = b.
Proof. destruct a, b; simpl; split; congruence. Qed.

Lemma Qleb_true a b : Qleb a b = true <-> a <= b.
Proof. apply Qle_bool_iff. Qed.

Lemma Qleb_false a b : Qleb a b = false <-> b < a.
Proof.
  unfold Qleb. split; intro H.
  - apply Qnot_le_lt. intro L. apply Qle_bool_iff in L. congruence.
  - destruct (Qle_bool a b) eqn:E; [|reflexivity].
    apply Qle_bool_iff in E. exfalso. apply (Qlt_not_le _ _ H E).
Qed.

Lemma Qgtb_true a b : Qgtb a b = true <-> b < a.
Proof. unfold Qgtb. rewrite negb_true_iff. apply Qleb_false. Qed.

Lemma Qgtb_false a b : Qgtb a b = false <-> a <= b.
Proof. unfold Qgtb. rewrite negb_false_iff. apply Qleb_true. Qed.

Lemma Qneqb_true a b : Qneqb a b = true <-> ~ a == b.
Proof.
  unfold Qneqb. rewrite negb_true_iff. split; intro H.
  - intro E. apply Qeq_bool_iff in E. congruence.
  - destruct (Qeq_bool a b) eqn:E; [|reflexivity].
    apply Qeq_bool_iff in E. contradiction.
Qed.

Lemma Qneqb_false a b : Qneqb a b = false <-> a == b.
Proof. unfold Qneqb. rewrite negb_false_iff. apply Qeq_bool_iff. Qed.

(** ** The song clock *)

Lemma getSongTimeMs_not_running now w :
  running (clock w) = false -> getSongTimeMs now w = 0.
Proof. unfold getSongTimeMs. intros ->. reflexivity. Qed.

Lemma getSongTimeMs_playing now w :
  running (clock w) = true -> paused (clock w) = false ->
  getSongTimeMs now w
  = now - startAtPerfMs (clock w) - pausedTotalMs (clock w).
Proof. unfold getSongTimeMs. intros -> ->. reflexivity. Qed.

Lemma getSongTimeMs_paused now w :
  running (clock w) = true -> paused (clock w) = true ->
  getSongTimeMs now w
  = pauseAtPerfMs (clock w) - startAtPerfMs (clock w) - pausedTotalMs (clock w).
Proof. unfold getSongTimeMs. intros -> ->. reflexivity. Qed.

(** C6.  The song time is 0 while the game is not running; while it runs
    and is not paused it is [now - startAtPerfMs - pausedTotalMs]; while it
    is paused it is [pauseAtPerfMs - startAtPerfMs - pausedTotalMs] whatever
    the wall clock shows.  Pausing at [now0] freezes the song time at the
    value it had at [now0]: every later reading returns that value. *)
Theorem getSongTimeMs_spec (now : Q) (w : World) :
  (running (clock w) = false -> getSongTimeMs now w = 0) /\
  (running (clock w) = true -> paused (clock w) = false ->
   getSongTimeMs now w
   = now - startAtPerfMs (clock w) - pausedTotalMs (clock w)) /\
  (running (clock w) = true -> paused (clock w) = true ->
   forall later : Q,
     getSongTimeMs later w
     = pauseAtPerfMs (clock w) - startAtPerfMs (clock w)
       - pausedTotalMs (clock w)) /\
  (running (clock w) = true -> paused (clock w) = false ->
   ended (clock w) = false ->
   forall nowT later : Q,
     paused (clock (togglePause now nowT w)) = true /\
     getSongTimeMs later (togglePause now nowT w) = getSongTimeMs now w).
Proof.
  split; [|split; [|split]].
  - apply getSongTimeMs_not_running.
  - apply getSongTimeMs_playing.
  - intros Hr Hp later. now apply getSongTimeMs_paused.
  - intros Hr Hp He nowT later.
    unfold togglePause, getSongTimeMs. rewrite Hr, Hp, He. simpl.
    split; reflexivity.
Qed.

(** ** Judgment tiers *)

Lemma judge_cases d : judge d = JP \/ judge d = JG \/ judge d = JO.
Proof.
  unfold judge.
  destruct (Qleb (Qabs d) CONFIG.PERFECT_MS); auto.
  destruct (Qleb (Qabs d) CONFIG.GOOD_MS); auto.
  destruct (Qleb (Qabs d) CONFIG.OK_MS); auto.
Qed.

(** C5.  [judge d] is Perfect when [|d| <= 45], Good when
    [45 < |d| <= 90], and Ok for every larger [|d|]; it is never Miss. *)
Theorem judge_spec (d : Q) :
  (Qabs d <= 45 -> judge d = JP) /\
  (45 < Qabs d /\ Qabs d <= 90 -> judge d = JG) /\
  (90 < Qabs d -> judge d = JO) /\
  judge d <> JM.
Proof.
  unfold judge, CONFIG.PERFECT_MS, CONFIG.GOOD_MS, CONFIG.OK_MS.
  repeat split.
  - intro H. apply Qleb_true in H. now rewrite H.
  - intros [H1 H2]. apply Qleb_false in H1. apply Qleb_true in H2.
    now rewrite H1, H2.
  - intro H.
    assert (H45 : 45 < Qabs d) by lra.
    apply Qleb_false in H, H45. rewrite H45, H.
    now destruct (Qleb (Qabs d) 140).
  - destruct (Qleb (Qabs d) 45); [discriminate|].
    destruct (Qleb (Qabs d) 90); [discriminate|].
    destruct (Qleb (Qabs d) 140); discriminate.
Qed.

Lemma judge_spec_witness :
  judge 10 = JP /\ judge (-60) = JG /\ judge 150 = JO.
Proof.
  split; [|split].
  - apply (proj1 (judge_spec 10)). vm_compute. discriminate.
  - apply (proj1 (proj2 (judge_spec (-60)))). split; vm_compute; congruence.
  - apply (proj1 (proj2 (proj2 (judge_spec 150)))). vm_compute. reflexivity.
Defined.

(** ** Accuracy *)

Lemma Qnat_nonneg k : 0 <= Qnat k.
Proof.
  unfold Qnat. change 0 with (inject_Z 0). rewrite <- Zle_Qle. lia.
Qed.

Lemma Qnat_plus a b : Qnat (a + b) == Qnat a + Qnat b.
Proof. unfold Qnat. rewrite Nat2Z.inj_add, inject_Z_plus. reflexivity. Qed.

Lemma accuracy_denom_pos k : 1 <= Qmax 1 (Qnat k).
Proof. apply Q.le_max_l. Qed.

(** With consistent counters the accuracy is a proportion. *)
Lemma computeAccuracy_range w :
  counts_consistent (stats w) ->
  0 <= computeAccuracy w /\ computeAccuracy w <= 1.
Proof.
  intro Hc. unfold computeAccuracy, counts_consistent in *.
  pose proof (accuracy_denom_pos (totalJudged (stats w))) as Hd.
  pose proof (Qnat_nonneg (p (stats w))) as Hp.
  pose proof (Qnat_nonneg (g (stats w))) as Hg.
  pose proof (Qnat_nonneg (o (stats w))) as Ho.
  pose proof (Qnat_nonneg (m (stats w))) as Hm.
  assert (Hsum : Qnat (p (stats w)) + Qnat (g (stats w)) + Qnat (o (stats w))
                 + Qnat (m (stats w)) == Qnat (totalJudged (stats w))).
  { rewrite <- Hc. rewrite !Qnat_plus. reflexivity. }
  pose proof (Q.le_max_r 1 (Qnat (totalJudged (stats w)))) as Hr.
  split.
  - apply Qle_shift_div_l; lra.
  - apply Qle_shift_div_r; lra.
Qed.

(** C9.  The accuracy is the weighted sum of the tier counts over
    [max(1, totalJudged)]; the divisor is at least 1; when the tier counts
    sum to [totalJudged] the accuracy lies in [0, 1], and it is 0 when
    moreover nothing was judged. *)
Theorem computeAccuracy_spec (w : World) :
  let st := stats w in
  computeAccuracy w
  == (Qnat (p st) * 1.0 + Qnat (g st) * 0.75 + Qnat (o st) * 0.45
      + Qnat (m st) * 0) / Qmax 1 (Qnat (totalJudged st)) /\
  1 <= Qmax 1 (Qnat (totalJudged st)) /\
  (counts_consistent st -> 0 <= computeAccuracy w /\ computeAccuracy w <= 1) /\
  (counts_consistent st -> totalJudged st = 0%nat -> computeAccuracy w == 0).
Proof.
  intro st. split; [|split; [|split]].
  - unfold computeAccuracy. fold st.
    pose proof (accuracy_denom_pos (totalJudged st)) as Hd.
    apply Qeq_sym. field_simplify_eq; [ring | lra].
  - apply accuracy_denom_pos.
  - apply computeAccuracy_range.
  - intros Hc H0. unfold counts_consistent in Hc. unfold computeAccuracy.
    fold st.
    assert (p st = 0 /\ g st = 0 /\ o st = 0)%nat as (-> & -> & ->) by lia.
    rewrite H0. vm_compute. reflexivity.
Qed.

Lemma computeAccuracy_spec_witness :
  (0 <= computeAccuracy (processAutoMisses 661 sweepWorld) /\
   computeAccuracy (processAutoMisses 661 sweepWorld) <= 1) /\
  computeAccuracy chordWorld == 0.
Proof.
  split.
  - apply (proj1 (proj2 (proj2
             (computeAccuracy_spec (processAutoMisses 661 sweepWorld))))).
    vm_compute. reflexivity.
  - apply (proj2 (proj2 (proj2 (computeAccuracy_spec chordWorld)))).
    + vm_compute. reflexivity.
    + vm_compute. reflexivity.
Defined.

(** ** Scoring a hit *)

Lemma update_note_same f ns : forall i n,
  nth_error ns i = Some n -> nth_error (update_note i f ns) i = Some (f n).
Proof.
  induction ns as [|a ns IH]; intros [|i] n H; simpl in *; try discriminate.
  - now injection H as ->.
  - now apply IH.
Qed.

Lemma update_note_other f ns : forall i j,
  i <> j -> nth_error (update_note i f ns) j = nth_error ns j.
Proof.
  induction ns as [|a ns IH]; intros [|i] [|j] H; simpl; try reflexivity.
  - contradiction.
  - apply IH. congruence.
Qed.

Lemma update_note_length f ns : forall i,
  List.length (update_note i f ns) = List.length ns.
Proof.
  induction ns as [|a ns IH]; intros [|i]; simpl; try reflexivity.
  now rewrite IH.
Qed.

Lemma applyJudgment_noteStates note t d j nowT w :
  noteStates (applyJudgment note t d j nowT w)
  = update_note note
      (fun n => mkRuntimeNote (tMs n) (x n) (y n) (r n)
                  hit (Some t) (Some d) (Some j))
      (noteStates w).
Proof. unfold applyJudgment. destruct j; reflexivity. Qed.

Lemma applyJudgment_clock note t d j nowT w :
  clock (applyJudgment note t d j nowT w) = clock w.
Proof. unfold applyJudgment. destruct j; reflexivity. Qed.

(** C4.  A hit of tier [j] (Perfect, Good or Ok) adds 1 to the combo,
    raises [maxCombo] to the new combo if that is larger, adds
    [baseScore j * (1 + (combo - 1) * 0.06)] to the score, with the new combo
    and the base scores 300, 150 and 60, and adds 1 to the tier's counter, to
    [totalJudged] and to [totalHit]; the other counters are kept.  From
    all-zero statistics a Perfect hit gives combo 1 and score 300. *)
Theorem applyJudgment_spec (note : nat) (t d : Q) (j : Judgment) (nowT : Q)
  (w : World) :
  j <> JM ->
  let st := stats w in
  let st' := stats (applyJudgment note t d j nowT w) in
  combo st' = S (combo st) /\
  maxCombo st' = Nat.max (maxCombo st) (combo st') /\
  score st'
  = score st + spec_baseScore j * (1 + (Qnat (combo st') - 1) * 0.06) /\
  tierCount j st' = S (tierCount j st) /\
  (forall j', j' <> j -> tierCount j' st' = tierCount j' st) /\
  totalJudged st' = S (totalJudged st) /\
  totalHit st' = S (totalHit st) /\
  (j = JP -> st = zeroStats -> combo st' = 1%nat /\ score st' == 300).
Proof.
  intros Hj st st'. subst st st'.
  assert (Hother : forall j' : Judgment, j' <> j ->
            tierCount j' (stats (applyJudgment note t d j nowT w))
            = tierCount j' (stats w)).
  { intros j' Hj'. unfold applyJudgment.
    destruct j, j'; try reflexivity; contradiction. }
  destruct j; try contradiction; unfold applyJudgment in *; simpl in *;
    (do 4 (split; [reflexivity|]); split; [exact Hother|];
     do 2 (split; [reflexivity|])); try discriminate.
  intros _ Hz. rewrite Hz. split; [reflexivity | vm_compute; reflexivity].
Qed.

Lemma applyJudgment_spec_witness :
  combo (stats (applyJudgment 0 1010 10 JP 1010 oneNoteStarted)) = 1%nat /\
  score (stats (applyJudgment 0 1010 10 JP 1010 oneNoteStarted)) == 300.
Proof.
  assert (H : JP <> JM) by discriminate.
  exact (proj2 (proj2 (proj2 (proj2 (proj2 (proj2 (proj2
           (applyJudgment_spec 0 1010 10 JP 1010 oneNoteStarted H)))))))
           eq_refl eq_refl).
Defined.

(** The counters stay consistent under a judgment. *)
Lemma applyJudgment_consistent note t d j nowT w :
  counts_consistent (stats w) ->
  counts_consistent (stats (applyJudgment note t d j nowT w)).
Proof.
  unfold counts_consistent, applyJudgment. destruct j; simpl; lia.
Qed.

(** ** The sort of the candidates *)

Section SortHead.
Context {A : Type} (cmp : A -> A -> Q) (rank : A -> nat).

(** The comparator is a consistent one. *)
Hypothesis cmp_trans :
  forall a b c, cmp a b <= 0 -> cmp b c <= 0 -> cmp a c <= 0.
Hypothesis cmp_total : forall a b, 0 < cmp a b -> cmp b a <= 0.

Lemma cmp_refl a : cmp a a <= 0.
Proof.
  destruct (Qlt_le_dec 0 (cmp a a)) as [H|H]; [|exact H].
  now apply cmp_total.
Qed.

Lemma sort_insert_length a l :
  List.length (sort_insert cmp a l) = S (List.length l).
Proof.
  induction l as [|b l IH]; simpl; [reflexivity|].
  destruct (Qleb (cmp a b) 0); simpl; [reflexivity|]. now rewrite IH.
Qed.

Lemma array_sort_length l :
  List.length (array_sort cmp l) = List.length l.
Proof.
  induction l as [|a l IH]; simpl; [reflexivity|].
  now rewrite sort_insert_length, IH.
Qed.

Lemma array_sort_nil l : array_sort cmp l = [] -> l = [].
Proof.
  intro H. apply (f_equal (@List.length A)) in H.
  rewrite array_sort_length in H. now destruct l.
Qed.

Lemma sort_insert_perm a l : Permutation (a :: l) (sort_insert cmp a l).
Proof.
  induction l as [|b l IH]; simpl; [reflexivity|].
  destruct (Qleb (cmp a b) 0); [reflexivity|].
  rewrite perm_swap. now apply perm_skip.
Qed.

Lemma array_sort_perm l : Permutation l (array_sort cmp l).
Proof.
  induction l as [|a l IH]; simpl; [constructor|].
  rewrite <- sort_insert_perm. now apply perm_skip.
Qed.

(** Inserting an element that came before all those of a sorted array. *)
Lemma sort_insert_sorted a l :
  (forall b, In b l -> (rank a < rank b)%nat) ->
  StronglySorted (stable_before cmp rank) l ->
  StronglySorted (stable_before cmp rank) (sort_insert cmp a l).
Proof.
  intros Hlt Hs. induction Hs as [|b l Hs IH Hb]; simpl.
  - constructor; constructor.
  - rewrite Forall_forall in Hb.
    destruct (Qleb (cmp a b) 0) eqn:Eab.
    + apply Qleb_true in Eab. constructor; [now constructor; [|apply Forall_forall]|].
      apply Forall_forall. intros c Hc. split.
      * destruct Hc as [<-|Hc]; [exact Eab|].
        apply cmp_trans with b; [exact Eab | apply (Hb c Hc)].
      * intros _. now apply Hlt.
    + apply Qleb_false in Eab. constructor.
      * apply IH. intros c Hc. apply Hlt. now right.
      * apply Forall_forall. intros c Hc.
        apply (Permutation_in _ (Permutation_sym (sort_insert_perm a l))) in Hc.
        destruct Hc as [<-|Hc]; [|now apply Hb].
        split; [now apply cmp_total|].
        intro Hle. exfalso. apply (Qlt_not_le _ _ Eab Hle).
Qed.

Lemma array_sort_sorted l :
  ranked rank l -> StronglySorted (stable_before cmp rank) (array_sort cmp l).
Proof.
  induction 1 as [|a l Hlt Hr IH]; simpl; [constructor|].
  apply sort_insert_sorted; [|exact IH].
  intros b Hb. apply Hlt.
  now apply (Permutation_in _ (Permutation_sym (array_sort_perm l))).
Qed.

(** The insertion sort computes a stable sort of the array. *)
Lemma array_sort_stable l :
  ranked rank l -> stable_sorted cmp rank l (array_sort cmp l).
Proof.
  intro Hr. split; [apply array_sort_perm | now apply array_sort_sorted].
Qed.

(** Two stable sorts of one array are the same array. *)
Lemma stable_sorted_unique l1 : forall l2,
  Permutation l1 l2 ->
  StronglySorted (stable_before cmp rank) l1 ->
  StronglySorted (stable_before cmp rank) l2 ->
  l1 = l2.
Proof.
  induction l1 as [|h1 t1 IH]; intros l2 Hp H1 H2.
  - apply Permutation_nil in Hp. now subst.
  - destruct l2 as [|h2 t2].
    { apply Permutation_sym, Permutation_nil in Hp. discriminate. }
    apply StronglySorted_inv in H1. destruct H1 as [S1 F1].
    apply StronglySorted_inv in H2. destruct H2 as [S2 F2].
    rewrite Forall_forall in F1, F2.
    assert (Eh : h1 = h2).
    { assert (I1 : In h1 (h2 :: t2))
        by (apply (Permutation_in _ Hp); now left).
      assert (I2 : In h2 (h1 :: t1))
        by (apply (Permutation_in _ (Permutation_sym Hp)); now left).
      destruct I1 as [E|I1]; [now symmetry|].
      destruct I2 as [E|I2]; [exact E|].
      destruct (F1 h2 I2) as [L12 R12]. destruct (F2 h1 I1) as [L21 R21].
      specialize (R12 L21). specialize (R21 L12). lia. }
    subst h2. f_equal. apply IH; [|exact S1|exact S2].
    now apply Permutation_cons_inv with h1.
Qed.

(** Whatever stable sort the engine runs, it returns what the insertion
    sort returns. *)
Lemma array_sort_unique l l' :
  ranked rank l -> stable_sorted cmp rank l l' -> l' = array_sort cmp l.
Proof.
  intros Hr [Hp Hs]. apply stable_sorted_unique; [|exact Hs|].
  - rewrite <- Hp. apply array_sort_perm.
  - now apply array_sort_sorted.
Qed.

(** The first element of the sorted array compares less than or equal to
    every element, and among the elements that compare equal to it, it is
    the one that came first. *)
Lemma array_sort_head l h tl :
  ranked rank l -> array_sort cmp l = h :: tl ->
  In h l /\
  forall c, In c l ->
    cmp h c <= 0 /\ (cmp c h <= 0 -> (rank h <= rank c)%nat).
Proof.
  intros Hr Hs. destruct (array_sort_stable l Hr) as [Hp Hss].
  rewrite Hs in Hp, Hss.
  apply StronglySorted_inv in Hss. destruct Hss as [_ Hf].
  rewrite Forall_forall in Hf. split.
  - apply (Permutation_in _ (Permutation_sym Hp)). now left.
  - intros c Hc. apply (Permutation_in _ Hp) in Hc.
    destruct Hc as [<-|Hc].
    + split; [apply cmp_refl | lia].
    + destruct (Hf c Hc) as [Hle Hrk]. split; [exact Hle|].
      intro H. specialize (Hrk H). lia.
Qed.
End SortHead.

(** ** Eligible notes and candidates *)

Lemma collectCandidates_cons t cx cy i n rest :
  collectCandidates t cx cy i (n :: rest)
  = if spec_eligible t cx cy n
    then candOf t cx cy i n :: collectCandidates t cx cy (S i) rest
    else collectCandidates t cx cy (S i) rest.
Proof.
  unfold spec_eligible, candOf. cbn [collectCandidates].
  unfold Qgtb, Qleb, CONFIG.HIT_WINDOW_MS.
  destruct (NoteState_eqb (state n) pending); [|reflexivity].
  destruct (Qle_bool (Qabs (t - tMs n)) 160); [|reflexivity].
  destruct (Qle_bool (dist2 cx cy (x n) (y n)) (r n * r n)); reflexivity.
Qed.

Lemma collectCandidates_In t cx cy ns : forall i c,
  In c (collectCandidates t cx cy i ns) <->
  exists j n, nth_error ns j = Some n /\ spec_eligible t cx cy n = true
              /\ c = candOf t cx cy (i + j) n.
Proof.
  induction ns as [|n rest IH]; intros i c.
  - simpl. split; [intros []|]. intros (j & n & H & _). now destruct j.
  - rewrite collectCandidates_cons. split.
    + intro H.
      destruct (spec_eligible t cx cy n) eqn:E.
      * destruct H as [<-|H].
        -- exists 0%nat, n. rewrite Nat.add_0_r. auto.
        -- apply IH in H. destruct H as (j & n' & Hn & He & ->).
           exists (S j), n'. rewrite Nat.add_succ_r. auto.
      * apply IH in H. destruct H as (j & n' & Hn & He & ->).
        exists (S j), n'. rewrite Nat.add_succ_r. auto.
    + intros (j & n' & Hn & He & ->).
      destruct j as [|j]; simpl in Hn.
      * injection Hn as ->. rewrite He, Nat.add_0_r. now left.
      * assert (Hin : In (candOf t cx cy (i + S j) n')
                        (collectCandidates t cx cy (S i) rest)).
        { apply IH. exists j, n'. rewrite Nat.add_succ_r. auto. }
        destruct (spec_eligible t cx cy n); [now right | exact Hin].
Qed.

Lemma collectCandidates_ranked t cx cy ns : forall i,
  ranked (fun c => fst (Cand.n c)) (collectCandidates t cx cy i ns).
Proof.
  induction ns as [|n rest IH]; intro i; [constructor|].
  rewrite collectCandidates_cons.
  destruct (spec_eligible t cx cy n); [|apply IH].
  constructor; [|apply IH].
  intros b Hb. apply collectCandidates_In in Hb.
  destruct Hb as (j & n' & _ & _ & ->). simpl. lia.
Qed.

Lemma collectCandidates_nil t cx cy ns i :
  collectCandidates t cx cy i ns = [] <->
  forall n, In n ns -> spec_eligible t cx cy n = false.
Proof.
  split.
  - intros H n Hn. apply In_nth_error in Hn. destruct Hn as [j Hj].
    destruct (spec_eligible t cx cy n) eqn:E; [|reflexivity].
    assert (Hin : In (candOf t cx cy (i + j) n)
                     (collectCandidates t cx cy i ns)).
    { apply collectCandidates_In. eauto. }
    rewrite H in Hin. destruct Hin.
  - intro H. destruct (collectCandidates t cx cy i ns) as [|c l] eqn:E;
      [reflexivity|].
    assert (Hin : In c (collectCandidates t cx cy i ns))
      by (rewrite E; now left).
    apply collectCandidates_In in Hin. destruct Hin as (j & n & Hn & He & _).
    apply nth_error_In in Hn. rewrite (H n Hn) in He. discriminate.
Qed.

(** The comparator orders the keys lexicographically. *)
Lemma compareCandidates_le a b :
  compareCandidates a b <= 0 <->
  Cand.absDelta a < Cand.absDelta b
  \/ (Cand.absDelta a == Cand.absDelta b /\ Cand.d2 a <= Cand.d2 b).
Proof.
  unfold compareCandidates.
  destruct (Qneqb (Cand.absDelta a) (Cand.absDelta b)) eqn:E.
  - apply Qneqb_true in E. split.
    + intro H. left.
      destruct (Qlt_le_dec (Cand.absDelta a) (Cand.absDelta b)) as [L|L];
        [exact L|].
      exfalso. apply E. lra.
    + intros [H|[H _]]; [lra | contradiction].
  - apply Qneqb_false in E. split.
    + intro H. right. split; [exact E | lra].
    + intros [H|[_ H]]; lra.
Qed.

Lemma compareCandidates_trans a b c :
  compareCandidates a b <= 0 -> compareCandidates b c <= 0 ->
  compareCandidates a c <= 0.
Proof.
  rewrite !compareCandidates_le.
  intros [H1|[H1 H1']] [H2|[H2 H2']].
  - left. lra.
  - left. lra.
  - left. lra.
  - right. split; lra.
Qed.

Lemma compareCandidates_total a b :
  0 < compareCandidates a b -> compareCandidates b a <= 0.
Proof.
  intro H. apply compareCandidates_le.
  destruct (Qlt_le_dec (Cand.absDelta b) (Cand.absDelta a)) as [L|L];
    [now left|].
  destruct (Qlt_le_dec (Cand.absDelta a) (Cand.absDelta b)) as [L'|L'].
  - exfalso. apply (Qlt_not_le _ _ H). apply compareCandidates_le. now left.
  - right. assert (E : Cand.absDelta b == Cand.absDelta a) by lra.
    split; [exact E|].
    destruct (Qlt_le_dec (Cand.d2 a) (Cand.d2 b)) as [D|D]; [|exact D].
    exfalso. apply (Qlt_not_le _ _ H). apply compareCandidates_le.
    right. split; lra.
Qed.

(** The array [attemptHit] sorts has one stable sort only: whatever stable
    algorithm [candidates.sort] runs, the sorted array is [array_sort]'s. *)
Lemma candidates_sort_unique t cx cy ns l' :
  stable_sorted compareCandidates (fun c => fst (Cand.n c))
    (collectCandidates t cx cy 0 ns) l' ->
  l' = array_sort compareCandidates (collectCandidates t cx cy 0 ns).
Proof.
  apply array_sort_unique.
  - apply compareCandidates_trans.
  - apply compareCandidates_total.
  - apply collectCandidates_ranked.
Qed.

(** ** The pick of [attemptHit] *)

(** [attemptHit] judges the note it picks, and only toasts when it picks
    none. *)
Lemma attemptHit_unfold now nowT cx cy w :
  attemptHit now nowT cx cy w
  = match attemptHit_pick now cx cy w with
    | Some (i, n) =>
        let t := getSongTimeMs now w in
        applyJudgment i t (t - tMs n) (judge (t - tMs n)) nowT w
    | None => toast nowT TNoHittable w
    end.
Proof.
  unfold attemptHit, attemptHit_pick.
  destruct (List.length _ =? 0)%nat eqn:El; [reflexivity|].
  destruct (array_sort compareCandidates _) as [|c tl] eqn:Es.
  - apply array_sort_nil in Es. rewrite Es in El. discriminate.
  - destruct (Cand.n c) as [i n] eqn:En. reflexivity.
Qed.

(** What is picked: an eligible note whose key no eligible note undercuts,
    and the first such note of the array. *)
Lemma attemptHit_pick_spec now cx cy w :
  let t := getSongTimeMs now w in
  match attemptHit_pick now cx cy w with
  | Some (i, n) =>
      nth_error (noteStates w) i = Some n /\
      spec_eligible t cx cy n = true /\
      forall j n',
        nth_error (noteStates w) j = Some n' ->
        spec_eligible t cx cy n' = true ->
        ~ lex_lt (spec_key t cx cy n') (spec_key t cx cy n) /\
        (key_eq (spec_key t cx cy n') (spec_key t cx cy n) -> (i <= j)%nat)
  | None =>
      forall n, In n (noteStates w) -> spec_eligible t cx cy n = false
  end.
Proof.
  intro t. unfold attemptHit_pick. fold t.
  destruct (List.length _ =? 0)%nat eqn:El.
  - apply Nat.eqb_eq in El. apply length_zero_iff_nil in El.
    exact (proj1 (collectCandidates_nil _ _ _ _ _) El).
  - destruct (array_sort compareCandidates _) as [|c tl] eqn:Es.
    { apply array_sort_nil in Es. rewrite Es in El. discriminate. }
    apply (array_sort_head compareCandidates (fun c => fst (Cand.n c))
             compareCandidates_trans compareCandidates_total) in Es;
      [|apply collectCandidates_ranked].
    destruct Es as [Hin Hmin].
    apply collectCandidates_In in Hin.
    destruct Hin as (i & n & Hn & He & ->). simpl.
    split; [exact Hn|]. split; [exact He|].
    intros j n' Hn' He'.
    assert (Hin' : In (candOf t cx cy (0 + j) n')
                      (collectCandidates t cx cy 0 (noteStates w))).
    { apply collectCandidates_In. eauto. }
    destruct (Hmin _ Hin') as [Hle Hfirst].
    apply compareCandidates_le in Hle. simpl in Hle.
    split.
    + unfold lex_lt, spec_key. simpl. intros [H|[H1 H2]]; lra.
    + unfold key_eq, spec_key. simpl. intros [H1 H2].
      simpl in Hfirst. apply Hfirst.
      apply compareCandidates_le. simpl. right. split; lra.
Qed.

(** C1.  For every activation, with [t] the song time: when [attemptHit]
    picks a note, the note is in the array, it is pending, within the hit
    window of 160 ms and under the point, no eligible note has a strictly
    smaller key [(|t - tMs|, dist2)] in the lexicographic order, and it is
    the note that [attemptHit] judges; when it picks none, no note is
    eligible and [attemptHit] only toasts. *)
Theorem attemptHit_selects_minimum (now nowT cx cy : Q) (w : World) :
  let t := getSongTimeMs now w in
  match attemptHit_pick now cx cy w with
  | Some (i, n) =>
      nth_error (noteStates w) i = Some n /\
      spec_eligible t cx cy n = true /\
      Qabs (t - tMs n) <= 160 /\
      (forall n', In n' (noteStates w) -> spec_eligible t cx cy n' = true ->
                  ~ lex_lt (spec_key t cx cy n') (spec_key t cx cy n)) /\
      attemptHit now nowT cx cy w
      = applyJudgment i t (t - tMs n) (judge (t - tMs n)) nowT w /\
      nth_error (noteStates (attemptHit now nowT cx cy w)) i
      = Some (mkRuntimeNote (tMs n) (x n) (y n) (r n) hit (Some t)
                (Some (t - tMs n)) (Some (judge (t - tMs n)))) /\
      (forall j, j <> i ->
         nth_error (noteStates (attemptHit now nowT cx cy w)) j
         = nth_error (noteStates w) j)
  | None =>
      (forall n, In n (noteStates w) -> spec_eligible t cx cy n = false) /\
      attemptHit now nowT cx cy w = toast nowT TNoHittable w
  end.
Proof.
  intro t.
  pose proof (attemptHit_pick_spec now cx cy w) as Hp.
  pose proof (attemptHit_unfold now nowT cx cy w) as Hu.
  fold t in Hp. fold t in Hu.
  destruct (attemptHit_pick now cx cy w) as [[i n]|].
  - destruct Hp as (Hn & He & Hmin).
    split; [exact Hn|]. split; [exact He|]. split.
    + unfold spec_eligible in He.
      apply andb_prop in He. destruct He as [He _].
      apply andb_prop in He. destruct He as [_ He].
      now apply Qleb_true in He.
    + split; [|split; [exact Hu|]].
      * intros n' Hin He'. apply In_nth_error in Hin. destruct Hin as [j Hj].
        exact (proj1 (Hmin j n' Hj He')).
      * rewrite Hu, applyJudgment_noteStates. split.
        -- now rewrite (update_note_same _ _ _ _ Hn).
        -- intros j Hj. apply update_note_other. congruence.
  - split; [exact Hp | exact Hu].
Qed.

(** C7.  When no note is eligible, [attemptHit] picks none and only shows
    the toast: the notes, the score fields, the clock, the cursor and the
    chart are what they were. *)
Theorem attemptHit_empty_no_mutation (now nowT cx cy : Q) (w : World) :
  (forall n, In n (noteStates w) ->
             spec_eligible (getSongTimeMs now w) cx cy n = false) ->
  let w' := attemptHit now nowT cx cy w in
  attemptHit_pick now cx cy w = None /\
  w' = toast nowT TNoHittable w /\
  noteStates w' = noteStates w /\
  stats w' = stats w /\
  clock w' = clock w /\
  cursorX w' = cursorX w /\ cursorY w' = cursorY w /\
  beatmap w' = beatmap w.
Proof.
  intros Hnone w'.
  assert (Hc : collectCandidates (getSongTimeMs now w) cx cy 0 (noteStates w)
               = []) by exact (proj2 (collectCandidates_nil _ _ _ _ _) Hnone).
  assert (Hw : w' = toast nowT TNoHittable w).
  { unfold w', attemptHit. rewrite Hc. reflexivity. }
  split.
  - unfold attemptHit_pick. rewrite Hc. reflexivity.
  - rewrite Hw. repeat split; reflexivity.
Qed.

(** C10.  The note that [attemptHit] judges is the first note of the array
    among the eligible notes of least key [(|t - tMs|, dist2)]:
    - the comparator returns 0 exactly when two candidates tie on the timing
      error and on the squared distance;
    - an eligible note at position [i] that no eligible note undercuts, and
      that comes no later in the array than any eligible note with the same
      key, is the pick, [attemptHit] judges it (the note at [i] becomes a
      hit stamped with the song time) and leaves every other note as it was;
    - conversely the pick is such a note: eligible, undercut by no eligible
      note, and the earliest of the array among the eligible notes sharing
      its key;
    - two activations at the same point, with the same song time and the
      same array of notes, pick the same note and leave the same array of
      notes, whatever the rest of the state is. *)
Theorem attemptHit_pick_first_of_ties (now nowT cx cy : Q) (w : World) :
  let t := getSongTimeMs now w in
  (forall a b,
     compareCandidates a b == 0 <->
     Cand.absDelta a == Cand.absDelta b /\ Cand.d2 a == Cand.d2 b) /\
  (forall i n,
     nth_error (noteStates w) i = Some n ->
     spec_eligible t cx cy n = true ->
     (forall j n',
        nth_error (noteStates w) j = Some n' ->
        spec_eligible t cx cy n' = true ->
        ~ lex_lt (spec_key t cx cy n') (spec_key t cx cy n) /\
        (key_eq (spec_key t cx cy n') (spec_key t cx cy n) -> (i <= j)%nat)) ->
     attemptHit_pick now cx cy w = Some (i, n) /\
     attemptHit now nowT cx cy w
     = applyJudgment i t (t - tMs n) (judge (t - tMs n)) nowT w /\
     nth_error (noteStates (attemptHit now nowT cx cy w)) i
     = Some (mkRuntimeNote (tMs n) (x n) (y n) (r n) hit (Some t)
               (Some (t - tMs n)) (Some (judge (t - tMs n)))) /\
     (forall j, j <> i ->
        nth_error (noteStates (attemptHit now nowT cx cy w)) j
        = nth_error (noteStates w) j)) /\
  (forall i n,
     attemptHit_pick now cx cy w = Some (i, n) ->
     nth_error (noteStates w) i = Some n /\
     spec_eligible t cx cy n = true /\
     (forall j n',
        nth_error (noteStates w) j = Some n' ->
        spec_eligible t cx cy n' = true ->
        ~ lex_lt (spec_key t cx cy n') (spec_key t cx cy n) /\
        (key_eq (spec_key t cx cy n') (spec_key t cx cy n) -> (i <= j)%nat)) /\
     nth_error (noteStates (attemptHit now nowT cx cy w)) i
     = Some (mkRuntimeNote (tMs n) (x n) (y n) (r n) hit (Some t)
               (Some (t - tMs n)) (Some (judge (t - tMs n))))) /\
  (forall now' nowT' w',
     getSongTimeMs now' w' = t ->
     noteStates w' = noteStates w ->
     attemptHit_pick now' cx cy w' = attemptHit_pick now cx cy w /\
     noteStates (attemptHit now' nowT' cx cy w')
     = noteStates (attemptHit now nowT cx cy w)).
Proof.
  intro t.
  pose proof (attemptHit_pick_spec now cx cy w) as Hs.
  pose proof (attemptHit_unfold now nowT cx cy w) as Hu.
  fold t in Hs. fold t in Hu.
  split; [|split; [|split]].
  - intros a b. unfold compareCandidates.
    destruct (Qneqb (Cand.absDelta a) (Cand.absDelta b)) eqn:E.
    + apply Qneqb_true in E. split.
      * intro H. exfalso. apply E. lra.
      * intros [H _]. contradiction.
    + apply Qneqb_false in E. split.
      * intro H. split; [exact E | lra].
      * intros [_ H]. lra.
  - intros i n Hn He Hbest.
    assert (Hp : attemptHit_pick now cx cy w = Some (i, n)).
    { destruct (attemptHit_pick now cx cy w) as [[i0 n0]|].
      - destruct Hs as (Hn0 & He0 & Hmin0).
        destruct (Hmin0 i n Hn He) as [Hlt Hfirst].
        destruct (Hbest i0 n0 Hn0 He0) as [Hlt' Hfirst'].
        assert (Hk : key_eq (spec_key t cx cy n0) (spec_key t cx cy n)).
        { unfold lex_lt in Hlt, Hlt'. unfold key_eq.
          destruct (spec_key t cx cy n0) as [a0 d0].
          destruct (spec_key t cx cy n) as [a1 d1]. simpl in *.
          assert (Ha : a0 == a1).
          { destruct (Qlt_le_dec a0 a1) as [H|H]; [exfalso; auto|].
            destruct (Qlt_le_dec a1 a0) as [H'|H']; [exfalso; auto|]. lra. }
          split; [exact Ha|].
          destruct (Qlt_le_dec d0 d1) as [H|H]; [exfalso; auto|].
          destruct (Qlt_le_dec d1 d0) as [H'|H'];
            [exfalso; apply Hlt; right; split; [lra | exact H']|]. lra. }
        assert (Hk' : key_eq (spec_key t cx cy n) (spec_key t cx cy n0)).
        { destruct Hk as [H1 H2]. split; lra. }
        assert (Ei : i = i0) by (specialize (Hfirst Hk'); specialize (Hfirst' Hk); lia).
        subst i0. rewrite Hn in Hn0. now inversion Hn0.
      - apply nth_error_In in Hn. rewrite (Hs n Hn) in He. discriminate. }
    rewrite Hp in Hu. split; [exact Hp|]. split; [exact Hu|].
    rewrite Hu, applyJudgment_noteStates. split.
    + now rewrite (update_note_same _ _ _ _ Hn).
    + intros j Hj. apply update_note_other. congruence.
  - intros i n Hp. rewrite Hp in Hs, Hu.
    destruct Hs as (Hn & He & Hmin).
    split; [exact Hn|]. split; [exact He|]. split; [exact Hmin|].
    rewrite Hu, applyJudgment_noteStates.
    now rewrite (update_note_same _ _ _ _ Hn).
  - intros now' nowT' w' Ht Hns.
    assert (Hp : attemptHit_pick now' cx cy w' = attemptHit_pick now cx cy w).
    { unfold attemptHit_pick. rewrite Ht, Hns. reflexivity. }
    split; [exact Hp|].
    rewrite (attemptHit_unfold now' nowT' cx cy w'), Hu, Hp, Ht.
    destruct (attemptHit_pick now cx cy w) as [[i n]|].
    + rewrite !applyJudgment_noteStates. now rewrite Hns.
    + simpl. exact Hns.
Qed.

(** ** The sweep of missed notes *)

Lemma spec_expired_swept t t' n :
  spec_expired t' (spec_sweepNote t n)
  = spec_expired t' n && negb (spec_expired t n).
Proof.
  unfold spec_sweepNote.
  destruct (spec_expired t n) eqn:E; simpl.
  - now rewrite andb_false_r.
  - now rewrite andb_true_r.
Qed.

Lemma sweepNotes_spec t ns : forall st,
  sweepNotes t ns st
  = (map (spec_sweepNote t) ns,
     spec_sweepStats (List.length (filter (spec_expired t) ns)) st).
Proof.
  induction ns as [|n rest IH]; intro st.
  - simpl. unfold spec_sweepStats. simpl. rewrite !Nat.add_0_r.
    now destruct st.
  - cbn [sweepNotes map filter].
    assert (E : spec_expired t n
                = NoteState_eqb (state n) pending
                  && Qgtb t (tMs n + CONFIG.HIT_WINDOW_MS)) by reflexivity.
    unfold spec_sweepNote at 1. rewrite E.
    destruct (NoteState_eqb (state n) pending); cbn [negb andb].
    + destruct (Qgtb t (tMs n + CONFIG.HIT_WINDOW_MS)).
      * rewrite IH. unfold spec_missed, spec_sweepStats. cbn.
        f_equal. f_equal; try lia.
        now destruct (List.length _ =? 0)%nat.
      * now rewrite IH.
    + now rewrite IH.
Qed.

Lemma sweep_fixed t ns :
  map (spec_sweepNote t) (map (spec_sweepNote t) ns) = map (spec_sweepNote t) ns
  /\ filter (spec_expired t) (map (spec_sweepNote t) ns) = [].
Proof.
  induction ns as [|n rest [IH1 IH2]]; [split; reflexivity|].
  cbn [map filter]. rewrite IH1, IH2.
  assert (E : spec_expired t (spec_sweepNote t n) = false).
  { rewrite spec_expired_swept. now destruct (spec_expired t n). }
  rewrite E. split; [|reflexivity].
  f_equal. unfold spec_sweepNote at 1. now rewrite E.
Qed.

(** C3.  The sweep at time [t] turns into misses exactly the pending notes
    with [t > tMs + 160], with [judgedAtMs = t], [deltaMs = t - tMs] and
    judgment Miss, and keeps every other note as it is; each swept note adds
    1 to the miss count and to [totalJudged], and the combo is 0 once a note
    was swept; the score, [maxCombo], [totalHit] and the hit counts are
    kept.  Sweeping again at the same time changes nothing. *)
Theorem processAutoMisses_spec (t : Q) (w : World) :
  let w' := processAutoMisses t w in
  let k := List.length (filter (spec_expired t) (noteStates w)) in
  (forall i n, nth_error (noteStates w) i = Some n ->
     nth_error (noteStates w') i
     = Some (if NoteState_eqb (state n) pending && Qgtb t (tMs n + 160)
             then mkRuntimeNote (tMs n) (x n) (y n) (r n)
                    miss (Some t) (Some (t - tMs n)) (Some JM)
             else n)) /\
  List.length (noteStates w') = List.length (noteStates w) /\
  m (stats w') = (m (stats w) + k)%nat /\
  totalJudged (stats w') = (totalJudged (stats w) + k)%nat /\
  combo (stats w') = (if (k =? 0)%nat then combo (stats w) else 0%nat) /\
  score (stats w') = score (stats w) /\
  maxCombo (stats w') = maxCombo (stats w) /\
  totalHit (stats w') = totalHit (stats w) /\
  p (stats w') = p (stats w) /\ g (stats w') = g (stats w) /\
  o (stats w') = o (stats w) /\
  clock w' = clock w /\
  processAutoMisses t w' = w'.
Proof.
  intros w' k. subst w'. unfold processAutoMisses.
  rewrite sweepNotes_spec. fold k. cbn.
  split.
  { intros i n Hn. now apply (map_nth_error (spec_sweepNote t)). }
  split; [apply length_map|].
  do 10 (split; [reflexivity|]).
  rewrite sweepNotes_spec.
  destruct (sweep_fixed t (noteStates w)) as [-> ->].
  unfold set_stats, set_noteStates, spec_sweepStats. cbn.
  rewrite !Nat.add_0_r. reflexivity.
Qed.

(** The counters stay consistent under the sweep. *)
Lemma processAutoMisses_consistent t w :
  counts_consistent (stats w) ->
  counts_consistent (stats (processAutoMisses t w)).
Proof.
  unfold counts_consistent, processAutoMisses.
  rewrite sweepNotes_spec. cbn. lia.
Qed.

Lemma processAutoMisses_noteStates t w :
  noteStates (processAutoMisses t w) = map (spec_sweepNote t) (noteStates w).
Proof. unfold processAutoMisses. now rewrite sweepNotes_spec. Qed.

Lemma processAutoMisses_clock t w : clock (processAutoMisses t w) = clock w.
Proof. unfold processAutoMisses. now rewrite sweepNotes_spec. Qed.

(** ** The end of a run *)

Lemma updateToast_clock nowU w : clock (updateToast nowU w) = clock w.
Proof.
  unfold updateToast. destruct (negb (toastShow w)); [reflexivity|].
  now destruct (Qgtb _ _).
Qed.

Lemma updateToast_noteStates nowU w :
  noteStates (updateToast nowU w) = noteStates w.
Proof.
  unfold updateToast. destruct (negb (toastShow w)); [reflexivity|].
  now destruct (Qgtb _ _).
Qed.

Lemma updateToast_stats nowU w : stats (updateToast nowU w) = stats w.
Proof.
  unfold updateToast. destruct (negb (toastShow w)); [reflexivity|].
  now destruct (Qgtb _ _).
Qed.

Lemma tMs_spec_sweepNote t n : tMs (spec_sweepNote t n) = tMs n.
Proof. unfold spec_sweepNote. now destruct (spec_expired t n). Qed.

Lemma countNotesLeft_zero w :
  countNotesLeft w = 0%nat <->
  forall n, In n (noteStates w) -> state n <> pending.
Proof.
  unfold countNotesLeft. rewrite length_zero_iff_nil. split.
  - intros H n Hn Hs.
    assert (Hin : In n (filter (fun n => NoteState_eqb (state n) pending)
                          (noteStates w))).
    { apply filter_In. split; [exact Hn|]. now apply NoteState_eqb_eq. }
    rewrite H in Hin. destruct Hin.
  - intro H.
    destruct (filter _ (noteStates w)) as [|n l] eqn:E; [reflexivity|].
    assert (Hin : In n (filter (fun n => NoteState_eqb (state n) pending)
                          (noteStates w))) by (rewrite E; now left).
    apply filter_In in Hin. destruct Hin as [Hn Hs].
    apply NoteState_eqb_eq in Hs. now apply H in Hn.
Qed.

(** C8.  In a running, unpaused run that has not ended, [tick] marks the
    run as ended exactly when the song time is past the time of the last note
    plus 160 + 260 + 200 ms and no note is pending after the sweep; while
    the game is not running or is paused, [tick] leaves the flags, the notes
    and the score fields as they are.  Once [ended] is set, a mouse press, a
    touch and a key press leave the whole state as it is, and [tick] keeps
    [ended], the notes and the score fields. *)
Theorem tick_end_condition (now nowT nowU : Q) (w : World) :
  let t := getSongTimeMs now w in
  (running (clock w) = true -> paused (clock w) = false ->
   ended (clock w) = false ->
   forall last,
     nth_error (noteStates w) (List.length (noteStates w) - 1) = Some last ->
     exists w',
       tick now nowT nowU w = Some w' /\
       noteStates w' = noteStates (processAutoMisses t w) /\
       (ended (clock w') = true <->
        tMs last + 160 + 260 + 200 < t /\
        forall n, In n (noteStates w') -> state n <> pending)) /\
  (running (clock w) = false \/ paused (clock w) = true ->
   exists w',
     tick now nowT nowU w = Some w' /\ clock w' = clock w /\
     noteStates w' = noteStates w /\ stats w' = stats w) /\
  (ended (clock w) = true ->
   (forall vp e, on_mousedown vp e now nowT w = w) /\
   (forall vp e, on_touchstart vp e now nowT w = w) /\
   (forall e, on_keydown e now nowT w = w) /\
   exists w',
     tick now nowT nowU w = Some w' /\ ended (clock w') = true /\
     noteStates w' = noteStates w /\ stats w' = stats w).
Proof.
  intro t. split; [|split].
  - intros Hr Hp He last Hlast.
    unfold tick. fold t. rewrite Hr, Hp, He. cbn [andb negb].
    rewrite processAutoMisses_noteStates, length_map.
    rewrite (map_nth_error (spec_sweepNote t) _ _ Hlast).
    rewrite tMs_spec_sweepNote.
    unfold CONFIG.HIT_WINDOW_MS, CONFIG.AFTER_MS.
    destruct (Qgtb t (tMs last + 160 + 260 + 200)) eqn:Et; cbn [andb].
    + apply Qgtb_true in Et.
      destruct (countNotesLeft (processAutoMisses t w) =? 0)%nat eqn:Ec.
      * eexists. split; [reflexivity|].
        rewrite updateToast_noteStates, updateToast_clock. cbn.
        rewrite ?processAutoMisses_noteStates.
        split; [reflexivity|].
        split; [|reflexivity]. intros _. split; [exact Et|].
        apply Nat.eqb_eq in Ec.
        pose proof (proj1 (countNotesLeft_zero _) Ec) as Hz.
        now rewrite processAutoMisses_noteStates in Hz.
      * eexists. split; [reflexivity|].
        rewrite updateToast_noteStates, updateToast_clock,
          processAutoMisses_clock, processAutoMisses_noteStates.
        split; [reflexivity|]. rewrite He.
        split; [discriminate|]. intros [_ Hnp]. exfalso.
        apply Nat.eqb_neq in Ec. apply Ec. apply countNotesLeft_zero.
        now rewrite processAutoMisses_noteStates.
    + apply Qgtb_false in Et.
      eexists. split; [reflexivity|].
      rewrite updateToast_noteStates, updateToast_clock,
        processAutoMisses_clock, processAutoMisses_noteStates.
      split; [reflexivity|]. rewrite He.
      split; [discriminate|]. intros [Hlt _]. exfalso.
      apply (Qlt_not_le _ _ Hlt Et).
  - intro H.
    assert (E : running (clock w) && negb (paused (clock w))
                && negb (ended (clock w)) = false).
    { destruct H as [-> | ->]; [reflexivity|]. cbn. now rewrite andb_false_r. }
    unfold tick. rewrite E. eexists. split; [reflexivity|].
    now rewrite updateToast_clock, updateToast_noteStates, updateToast_stats.
  - intro He. split; [|split; [|split]].
    + intros vp e. unfold on_mousedown. rewrite He, orb_true_r.
      destruct (negb (button e =? 0)%Z); [reflexivity|].
      now destruct (negb (running (clock w))).
    + intros vp e. unfold on_touchstart. rewrite He, orb_true_r.
      now destruct (negb (running (clock w))).
    + intro e. unfold on_keydown. rewrite He, !orb_true_r.
      destruct (repeat e); [reflexivity|].
      destruct (String.eqb (code e) CONFIG.KEY_HIT).
      * now destruct (negb (running (clock w))).
      * now destruct (String.eqb (code e) "Space").
    + unfold tick. rewrite He, andb_false_r.
      eexists. split; [reflexivity|].
      now rewrite updateToast_clock, updateToast_noteStates, updateToast_stats.
Qed.

(** ** Resizing the viewport *)

Lemma rebuildRuntimeNotes_fresh w bm :
  beatmap w = Some bm ->
  exists w',
    rebuildRuntimeNotes w = Some w' /\
    Forall fresh_note (noteStates w') /\
    map tMs (noteStates w') = map def_tMs (notes bm) /\
    stats w' = stats w /\ clock w' = clock w.
Proof.
  intro Hb. unfold rebuildRuntimeNotes. rewrite Hb.
  eexists. split; [reflexivity|]. cbn.
  split; [|split; [|split; reflexivity]].
  - apply Forall_forall. intros n Hn. apply in_map_iff in Hn.
    destruct Hn as (d & <- & _). repeat split.
  - rewrite map_map. reflexivity.
Qed.

(** Whenever a chart is loaded, a resize leaves every note as
    [makeRuntimeNote] makes it, whatever was judged before, and keeps the
    score fields and the clock. *)
Lemma resizeCanvas_rebuilds vp w bm :
  beatmap w = Some bm ->
  exists w',
    resizeCanvas vp w = Some w' /\
    Forall fresh_note (noteStates w') /\
    stats w' = stats w /\ clock w' = clock w.
Proof.
  intro Hb. unfold resizeCanvas. cbn. rewrite Hb.
  destruct (rebuildRuntimeNotes_fresh
              (set_view (Z.max 1 (Qfloor (rect_width vp)))
                 (Z.max 1 (Qfloor (rect_height vp)))
                 (Qmax 1 (Qmin 2.5 (dprOr1 (devicePixelRatio vp)))) w) bm Hb)
    as (w' & Hw & Hf & _ & Hs & Hc).
  exists w'. auto.
Qed.

(** ** Invariants of a session *)

Lemma Forall_update_note (P : RuntimeNote -> Prop) f ns :
  (forall n, P (f n)) -> Forall P ns -> forall i, Forall P (update_note i f ns).
Proof.
  intros Hf Hns. induction Hns as [|a ns Ha Hns IH]; intros [|i]; simpl;
    constructor; auto.
Qed.

Lemma map_tMs_update_note f ns :
  (forall n, tMs (f n) = tMs n) ->
  forall i, map tMs (update_note i f ns) = map tMs ns.
Proof.
  intro Hf. induction ns as [|a ns IH]; intros [|i]; simpl; try reflexivity.
  - now rewrite Hf.
  - now rewrite IH.
Qed.

Lemma note_wf_sweep t n : note_wf n -> note_wf (spec_sweepNote t n).
Proof.
  unfold spec_sweepNote. destruct (spec_expired t n); [|easy].
  intros _. unfold note_wf. simpl. repeat split; discriminate.
Qed.

Section Session.
Variable bm : Beatmap.

Lemma inv_toast nowT msg w :
  session_inv bm w -> session_inv bm (toast nowT msg w).
Proof. exact (fun H => H). Qed.

Lemma inv_updateToast nowU w :
  session_inv bm w -> session_inv bm (updateToast nowU w).
Proof.
  unfold updateToast. destruct (negb (toastShow w)); [easy|].
  now destruct (Qgtb _ _).
Qed.

Lemma inv_set_cursor cx cy w :
  session_inv bm w -> session_inv bm (set_cursor cx cy w).
Proof. exact (fun H => H). Qed.

Lemma inv_set_clock c w : session_inv bm w -> session_inv bm (set_clock c w).
Proof. exact (fun H => H). Qed.

Lemma inv_applyJudgment i t d nowT w :
  session_inv bm w -> session_inv bm (applyJudgment i t d (judge d) nowT w).
Proof.
  intros (Hb & (Hc & Hh & Hm) & Hn & Ht).
  split; [|split; [|split]].
  - unfold applyJudgment. now destruct (judge d).
  - unfold stats_wf, counts_consistent in *.
    pose proof (judge_cases d) as Hj. unfold applyJudgment.
    destruct Hj as [-> | [-> | ->]]; cbn; lia.
  - rewrite applyJudgment_noteStates. apply Forall_update_note; [|exact Hn].
    intro n. unfold note_wf. cbn.
    split; [|split; discriminate].
    destruct (judge_cases d) as [-> | [-> | ->]]; auto.
  - rewrite applyJudgment_noteStates, map_tMs_update_note; easy.
Qed.

Lemma inv_attemptHit now nowT cx cy w :
  session_inv bm w -> session_inv bm (attemptHit now nowT cx cy w).
Proof.
  intro H. rewrite attemptHit_unfold.
  destruct (attemptHit_pick now cx cy w) as [[i n]|].
  - now apply inv_applyJudgment.
  - now apply inv_toast.
Qed.

Lemma inv_processAutoMisses t w :
  session_inv bm w -> session_inv bm (processAutoMisses t w).
Proof.
  intros (Hb & (Hc & Hh & Hm) & Hn & Ht).
  unfold processAutoMisses. rewrite sweepNotes_spec.
  split; [exact Hb|]. split; [|split]; cbn.
  - unfold stats_wf, counts_consistent in *. cbn.
    destruct (List.length _ =? 0)%nat; lia.
  - apply Forall_forall. intros n Hin. apply in_map_iff in Hin.
    destruct Hin as (n0 & <- & Hin). apply note_wf_sweep.
    rewrite Forall_forall in Hn. now apply Hn.
  - rewrite map_map, <- Ht. apply map_ext. apply tMs_spec_sweepNote.
Qed.

Lemma inv_rebuildRuntimeNotes w w' :
  beatmap w = Some bm -> stats_wf (stats w) ->
  rebuildRuntimeNotes w = Some w' -> session_inv bm w'.
Proof.
  intros Hb Hs Hr.
  destruct (rebuildRuntimeNotes_fresh w bm Hb) as (w2 & Hw & Hf & Ht & Hst & _).
  rewrite Hw in Hr. injection Hr as <-.
  split; [|split; [|split]].
  - unfold rebuildRuntimeNotes in Hw. rewrite Hb in Hw. now injection Hw as <-.
  - now rewrite Hst.
  - rewrite Forall_forall in *. intros n Hn.
    destruct (Hf n Hn) as (E1 & E2 & E3 & E4). unfold note_wf. now rewrite E1.
  - exact Ht.
Qed.

Lemma stats_wf_zero : stats_wf zeroStats.
Proof. unfold stats_wf, counts_consistent. cbn. lia. Qed.

Lemma inv_resetGameState w w' :
  session_inv bm w -> resetGameState w = Some w' -> session_inv bm w'.
Proof.
  intros (Hb & _) Hr. unfold resetGameState in Hr.
  apply inv_rebuildRuntimeNotes in Hr; [exact Hr|exact Hb|exact stats_wf_zero].
Qed.

Lemma inv_startGame now nowT w w' :
  session_inv bm w -> startGame now nowT w = Some w' -> session_inv bm w'.
Proof.
  intros H Hs. unfold startGame in Hs.
  destruct (resetGameState w) as [w1|] eqn:E; [|discriminate].
  injection Hs as <-. apply inv_toast, inv_set_clock.
  now apply (inv_resetGameState w).
Qed.

Lemma inv_resizeCanvas vp w w' :
  session_inv bm w -> resizeCanvas vp w = Some w' -> session_inv bm w'.
Proof.
  intros (Hb & Hs & _) Hr. unfold resizeCanvas in Hr. cbn in Hr.
  rewrite Hb in Hr. now apply inv_rebuildRuntimeNotes in Hr.
Qed.

Lemma inv_togglePause now nowT w :
  session_inv bm w -> session_inv bm (togglePause now nowT w).
Proof.
  intro H. unfold togglePause.
  destruct (negb (running (clock w)) || ended (clock w)); [exact H|].
  now destruct (negb (paused (clock w))).
Qed.

Lemma inv_tick now nowT nowU w w' :
  session_inv bm w -> tick now nowT nowU w = Some w' -> session_inv bm w'.
Proof.
  intros H Ht. unfold tick in Ht.
  destruct (running (clock w) && negb (paused (clock w))
            && negb (ended (clock w))).
  - destruct (nth_error _ _) as [last|]; [|discriminate].
    destruct (Qgtb _ _ && _); injection Ht as <-; apply inv_updateToast.
    + apply inv_toast, inv_set_clock. now apply inv_processAutoMisses.
    + now apply inv_processAutoMisses.
  - injection Ht as <-. now apply inv_updateToast.
Qed.

Lemma resizeCanvas_stats vp w w' :
  resizeCanvas vp w = Some w' -> stats w' = stats w.
Proof.
  unfold resizeCanvas, rebuildRuntimeNotes. cbn [beatmap set_view].
  destruct (beatmap w); intro H; now injection H as <-.
Qed.

Lemma inv_loadBeatmap nowT w w' :
  stats_wf (stats w) -> loadBeatmap bm nowT w = Some w' -> session_inv bm w'.
Proof.
  intros Hs Hl. unfold loadBeatmap in Hl.
  destruct (rebuildRuntimeNotes (set_beatmap (Some bm) w)) as [w1|] eqn:E;
    [|discriminate].
  injection Hl as <-. apply inv_toast.
  apply inv_rebuildRuntimeNotes in E; [exact E|reflexivity|exact Hs].
Qed.

Lemma inv_init vp nowT w : init vp bm nowT = Some w -> session_inv bm w.
Proof.
  unfold init.
  destruct (resizeCanvas vp initialWorld) as [w1|] eqn:E1; [|discriminate].
  destruct (loadBeatmap bm nowT w1) as [w2|] eqn:E2; [|discriminate].
  destruct (resetGameState w2) as [w3|] eqn:E3; [|discriminate].
  intro H. injection H as <-. apply inv_set_cursor.
  apply (inv_resetGameState w2); [|exact E3].
  apply (inv_loadBeatmap nowT w1); [|exact E2].
  rewrite (resizeCanvas_stats _ _ _ E1). exact stats_wf_zero.
Qed.

Lemma inv_dispatch ev w w' :
  session_inv bm w -> dispatch ev w = Some w' -> session_inv bm w'.
Proof.
  intros H Hd. destruct ev; simpl in Hd.
  - now apply (inv_resizeCanvas vp w).
  - injection Hd as <-. now apply inv_set_cursor.
  - injection Hd as <-. unfold on_mousedown.
    destruct (negb (button e =? 0)%Z); [exact H|].
    destruct (negb (running (clock w))); [exact H|].
    destruct (paused (clock w) || ended (clock w)); [exact H|].
    now apply inv_attemptHit, inv_set_cursor.
  - injection Hd as <-. unfold on_touchstart.
    destruct (negb (running (clock w))); [exact H|].
    destruct (paused (clock w) || ended (clock w)); [exact H|].
    now apply inv_attemptHit, inv_set_cursor.
  - injection Hd as <-. unfold on_keydown.
    destruct (repeat e); [exact H|].
    destruct (String.eqb (code e) CONFIG.KEY_HIT).
    + destruct (negb (running (clock w))); [exact H|].
      destruct (paused (clock w) || ended (clock w)); [exact H|].
      pose proof (inv_attemptHit now nowT (cursorX w) (cursorY w) w H) as H1.
      destruct (String.eqb (code e) "Space"); [|exact H1].
      destruct (negb _ || _); [exact H1|]. now apply inv_togglePause.
    + destruct (String.eqb (code e) "Space"); [|exact H].
      destruct (negb _ || _); [exact H|]. now apply inv_togglePause.
  - now apply (inv_startGame now nowT w).
  - now apply (inv_startGame now nowT w).
  - injection Hd as <-. now apply inv_togglePause.
  - now apply (inv_tick now nowT nowU w).
Qed.

(** Every state of a session satisfies the invariant. *)
Lemma reachable_inv w : reachable bm w -> session_inv bm w.
Proof.
  induction 1 as [vp nowT w Hi | ev w w' _ IH Hd].
  - now apply (inv_init vp nowT).
  - now apply (inv_dispatch ev w).
Qed.

(** In every state of a session the tier counts sum to [totalJudged], and
    the accuracy shown is between 0 and 1. *)
Lemma reachable_accuracy w :
  reachable bm w ->
  counts_consistent (stats w) /\
  0 <= computeAccuracy w /\ computeAccuracy w <= 1.
Proof.
  intro H. apply reachable_inv in H. destruct H as (_ & (Hc & _) & _).
  split; [exact Hc | now apply computeAccuracy_range].
Qed.
End Session.

(** ** Worked scenarios *)

(** The worlds of the scenarios are states of a session. *)
Lemma started_reachable bm w : started bm = Some w -> reachable bm w.
Proof.
  unfold started. destruct (init viewport800 bm 0) as [w0|] eqn:E;
    [|discriminate].
  intro H. apply (reach_step bm (EvStart 0 0) w0 w); [|exact H].
  now apply (reach_init bm viewport800 0).
Qed.

Lemma chordWorld_reachable : reachable chordChart chordWorld.
Proof. apply started_reachable. vm_compute. reflexivity. Qed.

Lemma oneNoteStarted_reachable : reachable oneNoteChart oneNoteStarted.
Proof. apply started_reachable. vm_compute. reflexivity. Qed.

Lemma endedWorld_reachable : reachable chordChart endedWorld.
Proof.
  apply (reach_step chordChart (EvFrame 2621 2621 2621) chordWorld);
    [exact chordWorld_reachable | vm_compute; reflexivity].
Qed.

Lemma sweepWorld_reachable : reachable threeChart sweepWorld.
Proof.
  apply (reach_step threeChart
           (EvMouseDown viewport800 (mkMouseEvent 0 188.8 148.8) 410 410)
           (orInitial (started threeChart)));
    [apply started_reachable|]; vm_compute; reflexivity.
Qed.

(** ** A resize in the middle of a run *)

(** C2.  The window is resized in the middle of a run of the one-note
    chart, after the note was hit at 1010 ms: [resizeCanvas] puts the note
    back to pending with its judgment fields cleared, while the score fields
    still count the hit; the tick at 1300 ms then sweeps the same note as a
    miss, so two judgments are counted for a chart of one note. *)
Theorem resizeCanvas_mid_run_resets_hit_note :
  exists w_hit w_resized w_tick,
    oneNoteHit = Some w_hit /\
    reachable oneNoteChart w_hit /\
    map state (noteStates w_hit) = [hit] /\
    map judgment (noteStates w_hit) = [Some JP] /\
    totalJudged (stats w_hit) = 1%nat /\
    resizeCanvas viewport1024 w_hit = Some w_resized /\
    map state (noteStates w_resized) = [pending] /\
    map judgedAtMs (noteStates w_resized) = [None] /\
    map deltaMs (noteStates w_resized) = [None] /\
    map judgment (noteStates w_resized) = [None] /\
    running (clock w_resized) = true /\
    totalJudged (stats w_resized) = 1%nat /\
    p (stats w_resized) = 1%nat /\
    tick 1300 1300 1300 w_resized = Some w_tick /\
    map state (noteStates w_tick) = [miss] /\
    p (stats w_tick) = 1%nat /\ m (stats w_tick) = 1%nat /\
    totalJudged (stats w_tick) = 2%nat.
Proof.
  do 3 eexists.
  split; [vm_compute; reflexivity|].
  split.
  { apply (reach_step oneNoteChart
             (EvMouseDown viewport800 (mkMouseEvent 0 400 300) 1010 1010)
             oneNoteStarted);
      [exact oneNoteStarted_reachable | vm_compute; reflexivity]. }
  do 3 (split; [reflexivity|]).
  split; [vm_compute; reflexivity|].
  do 7 (split; [reflexivity|]).
  split; [vm_compute; reflexivity|].
  repeat split.
Qed.

(** ** Instances of the properties *)

Lemma getSongTimeMs_spec_witness :
  getSongTimeMs 2000 initialWorld = 0 /\
  getSongTimeMs 2000 chordWorld
  = 2000 - startAtPerfMs (clock chordWorld) - pausedTotalMs (clock chordWorld) /\
  getSongTimeMs 9000 (togglePause 2000 2000 chordWorld)
  = getSongTimeMs 2000 chordWorld.
Proof.
  split; [|split].
  - exact (proj1 (getSongTimeMs_spec 2000 initialWorld) eq_refl).
  - exact (proj1 (proj2 (getSongTimeMs_spec 2000 chordWorld))
             eq_refl eq_refl).
  - exact (proj2 (proj2 (proj2 (proj2 (getSongTimeMs_spec 2000 chordWorld)))
                    eq_refl eq_refl eq_refl 2000 9000)).
Defined.

Lemma attemptHit_selects_minimum_witness :
  attemptHit_pick 2000 241.6 300 chordWorld = Some (1%nat, chordA) /\
  attemptHit 2000 2000 241.6 300 chordWorld
  = applyJudgment 1 (getSongTimeMs 2000 chordWorld)
      (getSongTimeMs 2000 chordWorld - tMs chordA)
      (judge (getSongTimeMs 2000 chordWorld - tMs chordA)) 2000 chordWorld.
Proof.
  pose proof (attemptHit_selects_minimum 2000 2000 241.6 300 chordWorld) as H.
  assert (E : attemptHit_pick 2000 241.6 300 chordWorld = Some (1%nat, chordA))
    by (vm_compute; reflexivity).
  rewrite E in H. split; [exact E|].
  exact (proj1 (proj2 (proj2 (proj2 (proj2 H))))).
Defined.

Lemma attemptHit_empty_no_mutation_witness :
  stats (attemptHit 2000 2000 400 100 chordWorld) = stats chordWorld /\
  noteStates (attemptHit 2000 2000 400 100 chordWorld) = noteStates chordWorld.
Proof.
  assert (H : forall n, In n (noteStates chordWorld) ->
                spec_eligible (getSongTimeMs 2000 chordWorld) 400 100 n = false).
  { intros n [<-|[<-|[<-|[]]]]; vm_compute; reflexivity. }
  pose proof (attemptHit_empty_no_mutation 2000 2000 400 100 chordWorld H) as R.
  cbv zeta in R. split; [exact (proj1 (proj2 (proj2 (proj2 R))))
                        | exact (proj1 (proj2 (proj2 R)))].
Defined.

Lemma attemptHit_pick_first_of_ties_witness :
  attemptHit_pick 2000 241.6 300 chordWorld = Some (1%nat, chordA) /\
  nth_error (noteStates (attemptHit 2000 2000 241.6 300 chordWorld)) 1
  = Some (mkRuntimeNote (tMs chordA) (x chordA) (y chordA) (r chordA) hit
            (Some (getSongTimeMs 2000 chordWorld))
            (Some (getSongTimeMs 2000 chordWorld - tMs chordA))
            (Some (judge (getSongTimeMs 2000 chordWorld - tMs chordA)))) /\
  nth_error (noteStates (attemptHit 2000 2000 241.6 300 chordWorld)) 2
  = Some chordB.
Proof.
  assert (H : forall j n',
            nth_error (noteStates chordWorld) j = Some n' ->
            spec_eligible (getSongTimeMs 2000 chordWorld) 241.6 300 n' = true ->
            ~ lex_lt (spec_key (getSongTimeMs 2000 chordWorld) 241.6 300 n')
                     (spec_key (getSongTimeMs 2000 chordWorld) 241.6 300 chordA) /\
            (key_eq (spec_key (getSongTimeMs 2000 chordWorld) 241.6 300 n')
                    (spec_key (getSongTimeMs 2000 chordWorld) 241.6 300 chordA) ->
             (1 <= j)%nat)).
  { intros j n' Hn' He'.
    destruct j as [|[|[|j]]].
    - vm_compute in Hn'. inversion Hn'; subst n'.
      vm_compute in He'. discriminate.
    - split; [|intros _; lia].
      vm_compute in Hn'. inversion Hn'; subst n'.
      intros [Hl|[_ Hl]]; vm_compute in Hl; discriminate.
    - split; [|intros _; lia].
      vm_compute in Hn'. inversion Hn'; subst n'.
      intros [Hl|[_ Hl]]; vm_compute in Hl; discriminate.
    - vm_compute in Hn'. destruct j; discriminate. }
  destruct (proj1 (proj2 (attemptHit_pick_first_of_ties 2000 2000 241.6 300
                            chordWorld))
              1%nat chordA eq_refl eq_refl H) as (Hp & _ & Hhit & Hrest).
  split; [exact Hp|]. split; [exact Hhit|].
  rewrite (Hrest 2%nat) by discriminate. reflexivity.
Defined.

Lemma processAutoMisses_spec_witness :
  nth_error (noteStates (processAutoMisses 661 sweepWorld)) 0 = Some sweepHit /\
  nth_error (noteStates (processAutoMisses 661 sweepWorld)) 1
  = Some (mkRuntimeNote (tMs sweepDue) (x sweepDue) (y sweepDue) (r sweepDue)
            miss (Some 661) (Some (661 - tMs sweepDue)) (Some JM)) /\
  nth_error (noteStates (processAutoMisses 661 sweepWorld)) 2 = Some sweepLater.
Proof.
  pose proof (proj1 (processAutoMisses_spec 661 sweepWorld)) as H.
  split; [|split].
  - exact (H 0%nat sweepHit eq_refl).
  - exact (H 1%nat sweepDue eq_refl).
  - exact (H 2%nat sweepLater eq_refl).
Defined.

Lemma tick_end_condition_witness :
  (exists w',
     tick 2621 2621 2621 chordWorld = Some w' /\
     noteStates w'
     = noteStates (processAutoMisses (getSongTimeMs 2621 chordWorld) chordWorld) /\
     (ended (clock w') = true <->
      tMs chordB + 160 + 260 + 200 < getSongTimeMs 2621 chordWorld /\
      forall n, In n (noteStates w') -> state n <> pending)) /\
  on_mousedown viewport800 (mkMouseEvent 0 224 300) 2700 2700 endedWorld
  = endedWorld /\
  on_keydown (mkKeyEvent false "KeyE") 2700 2700 endedWorld = endedWorld.
Proof.
  split; [|split].
  - exact (proj1 (tick_end_condition 2621 2621 2621 chordWorld)
             eq_refl eq_refl eq_refl chordB eq_refl).
  - exact (proj1 (proj2 (proj2 (tick_end_condition 2700 2700 2700 endedWorld))
                    eq_refl)
             viewport800 (mkMouseEvent 0 224 300)).
  - exact (proj1 (proj2 (proj2 (proj2 (proj2
             (tick_end_condition 2700 2700 2700 endedWorld)) eq_refl)))
             (mkKeyEvent false "KeyE")).
Defined.

(** The scenarios of the specification, run on the code. *)

Example scenario_perfect_hit :
  map judgment
    (noteStates
       (attemptHit 1010 1010 100 100
          (runningWorld [mkRuntimeNote 1000 100 100 34 pending None None None]
             zeroStats)))
  = [Some JP] /\
  combo
    (stats
       (attemptHit 1010 1010 100 100
          (runningWorld [mkRuntimeNote 1000 100 100 34 pending None None None]
             zeroStats)))
  = 1%nat /\
  score
    (stats
       (attemptHit 1010 1010 100 100
          (runningWorld [mkRuntimeNote 1000 100 100 34 pending None None None]
             zeroStats)))
  == 300.
Proof. vm_compute. repeat split. Qed.

Example scenario_chord_spatial :
  map state
    (noteStates
       (attemptHit 2000 2000 100 100 (runningWorld [noteA; noteFar] zeroStats)))
  = [hit; pending].
Proof. reflexivity. Qed.

Example scenario_auto_miss :
  map state
    (noteStates
       (processAutoMisses 661
          (runningWorld [noteEarly] (mkStats 300 1 1 1 0 0 0 1 1))))
  = [miss] /\
  combo
    (stats
       (processAutoMisses 661
          (runningWorld [noteEarly] (mkStats 300 1 1 1 0 0 0 1 1))))
  = 0%nat /\
  totalJudged
    (stats
       (processAutoMisses 661
          (runningWorld [noteEarly] (mkStats 300 1 1 1 0 0 0 1 1))))
  = 2%nat /\
  map state
    (noteStates
       (processAutoMisses 660
          (runningWorld [noteEarly] (mkStats 300 1 1 1 0 0 0 1 1))))
  = [pending].
Proof. vm_compute. repeat split. Qed.

Example scenario_tick_ends_run :
  ended (clock endedWorld) = true /\ m (stats endedWorld) = 3%nat /\
  map state (noteStates sweepWorld) = [hit; pending; pending] /\
  map state (noteStates (processAutoMisses 661 sweepWorld))
  = [hit; miss; pending].
Proof. vm_compute. repeat split. Qed.

(** * Further properties of the engine *)

(** ** Utilities *)

(** Case analysis on every [Qmax] and [Qmin] of the goal and of the
    hypotheses. *)
Ltac q_minmax :=
  repeat match goal with
  | |- context [Qmax ?a ?b] =>
      let H := fresh "Hmax" in
      let v := fresh "vmax" in
      let E := fresh "Emax" in
      destruct (Q.max_spec a b) as [[? H]|[? H]];
      remember (Qmax a b) as v eqn:E in *; clear E
  | |- context [Qmin ?a ?b] =>
      let H := fresh "Hmin" in
      let v := fresh "vmin" in
      let E := fresh "Emin" in
      destruct (Q.min_spec a b) as [[? H]|[? H]];
      remember (Qmin a b) as v eqn:E in *; clear E
  | _ : context [Qmax ?a ?b] |- _ =>
      let H := fresh "Hmax" in
      let v := fresh "vmax" in
      let E := fresh "Emax" in
      destruct (Q.max_spec a b) as [[? H]|[? H]];
      remember (Qmax a b) as v eqn:E in *; clear E
  | _ : context [Qmin ?a ?b] |- _ =>
      let H := fresh "Hmin" in
      let v := fresh "vmin" in
      let E := fresh "Emin" in
      destruct (Q.min_spec a b) as [[? H]|[? H]];
      remember (Qmin a b) as v eqn:E in *; clear E
  end.

Lemma clamp_in_range v a b : a <= b -> a <= clamp v a b /\ clamp v a b <= b.
Proof. intro Hab. unfold clamp. q_minmax; split; lra. Qed.

Lemma lerp_in_range a b t :
  a <= b -> 0 <= t -> t <= 1 -> a <= lerp a b t /\ lerp a b t <= b.
Proof. intros Hab H0 H1. unfold lerp. split; nra. Qed.

(** X1.  [clamp(v, a, b)] with [a <= b] lies in [[a, b]], is [v] when [v] does,
    and the nearer bound otherwise. *)
Theorem clamp_bounds (v a b : Q) :
  a <= b ->
  a <= clamp v a b /\ clamp v a b <= b /\
  (a <= v -> v <= b -> clamp v a b == v) /\
  (v <= a -> clamp v a b == a) /\
  (b <= v -> clamp v a b == b).
Proof.
  intro Hab. unfold clamp. q_minmax; repeat split; intros; lra.
Qed.

Lemma clamp_bounds_witness :
  0 <= clamp 1.7 0 1 /\ clamp 1.7 0 1 <= 1 /\ clamp 1.7 0 1 == 1.
Proof.
  assert (H : 0 <= 1) by lra.
  destruct (clamp_bounds 1.7 0 1 H) as (H1 & H2 & _ & _ & H5).
  split; [exact H1|]. split; [exact H2|]. apply H5. lra.
Defined.

(** X2.  [lerp(a, b, t)] is [a] at [t = 0]; for [a <= b] it does not decrease
    when [t] grows, so it is never below [a] for [t >= 0]; for [b <= a] it
    does not increase when [t] grows. *)
Theorem lerp_between (a b t t' : Q) :
  lerp a b 0 == a /\
  (a <= b -> t <= t' -> lerp a b t <= lerp a b t') /\
  (a <= b -> 0 <= t -> a <= lerp a b t) /\
  (b <= a -> t <= t' -> lerp a b t' <= lerp a b t).
Proof.
  unfold lerp. split; [ring|]. split; [|split].
  - intros Hab Ht. nra.
  - intros Hab Ht. nra.
  - intros Hab Ht. nra.
Qed.

Lemma lerp_between_witness :
  lerp 48 752 0.25 <= lerp 48 752 0.75 /\ 48 <= lerp 48 752 0.25.
Proof.
  destruct (lerp_between 48 752 0.25 0.75) as (_ & Hm & Hl & _).
  split; [apply Hm; lra | apply Hl; lra].
Defined.

(** X3.  [dist2] is symmetric and never negative, and it is 0 exactly when the
    two points are the same. *)
Theorem dist2_zero_iff (ax ay bx by_ : Q) :
  0 <= dist2 ax ay bx by_ /\
  dist2 ax ay bx by_ == dist2 bx by_ ax ay /\
  (dist2 ax ay bx by_ == 0 <-> ax == bx /\ ay == by_).
Proof.
  unfold dist2. cbv zeta.
  assert (Hsq : forall dx dy : Q,
            0 <= dx * dx + dy * dy
            /\ (dx * dx + dy * dy == 0 -> dx == 0 /\ dy == 0)).
  { intros dx dy. split; [nra|]. intro H. split; nra. }
  destruct (Hsq (ax - bx) (ay - by_)) as [Hpos Hzero].
  split; [exact Hpos|]. split; [ring|]. split.
  - intro H. destruct (Hzero H). split; lra.
  - intros [-> ->]. ring.
Qed.

(** ** Building the runtime notes *)

Lemma radiusFactor_bounds rn : 0.6 <= radiusFactor rn /\ radiusFactor rn <= 1.6.
Proof.
  unfold radiusFactor. destruct rn as [v|]; [|split; lra].
  destruct (Qneqb v 0); [|split; lra].
  apply clamp_in_range. lra.
Qed.

Lemma baseRadius_bounds (k : Q) :
  18 <= Qmax 18 (Qmin CONFIG.BASE_RADIUS_PX k)
  /\ Qmax 18 (Qmin CONFIG.BASE_RADIUS_PX k) <= 34.
Proof. unfold CONFIG.BASE_RADIUS_PX. q_minmax; split; lra. Qed.

Lemma safePad_bounds (cw ch : Z) :
  (52 <= cw)%Z ->
  let pad := Qmax 26 (inject_Z (Z.min cw ch) * 0.08) in
  26 <= pad /\ pad <= inject_Z cw - pad.
Proof.
  intros Hcw pad. subst pad.
  assert (Hmin : inject_Z (Z.min cw ch) <= inject_Z cw)
    by (rewrite <- Zle_Qle; lia).
  assert (H52 : 52 <= inject_Z cw).
  { change 52 with (inject_Z 52). rewrite <- Zle_Qle. exact Hcw. }
  q_minmax; split; lra.
Qed.

(** X4.  [rebuildRuntimeNotes] throws exactly when no chart is loaded.
    Otherwise it makes one pending note per note of the chart, in the order
    of the chart and with its time, and changes nothing else of the state;
    every radius is the product of a base radius between 18 and 34 pixels
    and of a factor between 0.6 and 1.6, so it is between 10 and 55
    pixels. *)
Theorem rebuildRuntimeNotes_shape (w : World) :
  (rebuildRuntimeNotes w = None <-> beatmap w = None) /\
  forall w', rebuildRuntimeNotes w = Some w' ->
    (exists bm, beatmap w = Some bm /\
                map tMs (noteStates w') = map def_tMs (notes bm)) /\
    Forall fresh_note (noteStates w') /\
    Forall (fun n => exists base f,
              r n = base * f /\
              18 <= base /\ base <= 34 /\ 0.6 <= f /\ f <= 1.6 /\
              10 <= r n /\ r n <= 55) (noteStates w') /\
    set_noteStates (noteStates w) w' = w.
Proof.
  unfold rebuildRuntimeNotes. split.
  - destruct (beatmap w); split; intro H; try discriminate; reflexivity.
  - intros w' H. destruct (beatmap w) as [bm|] eqn:Eb; [|discriminate].
    injection H as <-. cbn [noteStates set_noteStates].
    split; [|split; [|split]].
    + exists bm. split; [reflexivity|]. now rewrite map_map.
    + apply Forall_forall. intros n Hn. apply in_map_iff in Hn.
      destruct Hn as (d & <- & _). repeat split.
    + apply Forall_forall. intros n Hn. apply in_map_iff in Hn.
      destruct Hn as (d & <- & _). unfold makeRuntimeNote. cbn [r].
      pose proof (radiusFactor_bounds (rN d)) as [Hf1 Hf2].
      pose proof (baseRadius_bounds
                    (inject_Z (Z.min (cssW w) (cssH w)) * 0.055)) as [Hb1 Hb2].
      eexists. eexists. split; [reflexivity|].
      split; [exact Hb1|]. split; [exact Hb2|].
      split; [exact Hf1|]. split; [exact Hf2|].
      split; nra.
    + now destruct w.
Qed.

Lemma rebuildRuntimeNotes_shape_witness :
  Forall fresh_note (noteStates chordWorld) /\
  Forall (fun n => exists base f,
            r n = base * f /\
            18 <= base /\ base <= 34 /\ 0.6 <= f /\ f <= 1.6 /\
            10 <= r n /\ r n <= 55) (noteStates chordWorld).
Proof.
  assert (H : rebuildRuntimeNotes chordWorld = Some chordWorld)
    by (vm_compute; reflexivity).
  destruct (proj2 (rebuildRuntimeNotes_shape chordWorld) chordWorld H)
    as (_ & H1 & H2 & _).
  split; [exact H1 | exact H2].
Defined.

(** X5.  On a canvas at least 52 pixels wide and high, [rebuildRuntimeNotes]
    puts the centre of every note inside the padded area: at least the safe
    padding, itself at least 26 pixels, away from each border. *)
Theorem rebuildRuntimeNotes_inside_canvas (w w' : World) :
  (52 <= cssW w)%Z -> (52 <= cssH w)%Z ->
  rebuildRuntimeNotes w = Some w' ->
  let pad := Qmax 26 (inject_Z (Z.min (cssW w) (cssH w)) * 0.08) in
  26 <= pad /\
  Forall (fun n => pad <= x n /\ x n <= inject_Z (cssW w) - pad /\
                   pad <= y n /\ y n <= inject_Z (cssH w) - pad)
    (noteStates w').
Proof.
  intros Hw Hh H pad.
  destruct (safePad_bounds (cssW w) (cssH w) Hw) as [H26 Hx].
  assert (Hy : pad <= inject_Z (cssH w) - pad).
  { pose proof (safePad_bounds (cssH w) (cssW w) Hh) as [_ Hy].
    rewrite Z.min_comm in Hy. exact Hy. }
  split; [exact H26|].
  unfold rebuildRuntimeNotes in H.
  destruct (beatmap w) as [bm|]; [|discriminate]. injection H as <-.
  cbn [noteStates set_noteStates].
  apply Forall_forall. intros n Hn. apply in_map_iff in Hn.
  destruct Hn as (d & <- & _). unfold makeRuntimeNote. cbn [x y]. fold pad.
  assert (H01 : 0 <= 1) by lra.
  destruct (clamp_in_range (xN d) 0 1 H01) as [Hx0 Hx1].
  destruct (clamp_in_range (yN d) 0 1 H01) as [Hy0 Hy1].
  destruct (lerp_in_range pad (inject_Z (cssW w) - pad) (clamp (xN d) 0 1)
              Hx Hx0 Hx1).
  destruct (lerp_in_range pad (inject_Z (cssH w) - pad) (clamp (yN d) 0 1)
              Hy Hy0 Hy1).
  auto.
Qed.

Lemma rebuildRuntimeNotes_inside_canvas_witness :
  Forall (fun n => 26 <= x n /\ x n <= 800 - 26 /\
                   26 <= y n /\ y n <= 600 - 26)
    (noteStates chordWorld).
Proof.
  assert (Hw : (52 <= cssW chordWorld)%Z) by (vm_compute; discriminate).
  assert (Hh : (52 <= cssH chordWorld)%Z) by (vm_compute; discriminate).
  assert (H : rebuildRuntimeNotes chordWorld = Some chordWorld)
    by (vm_compute; reflexivity).
  destruct (rebuildRuntimeNotes_inside_canvas chordWorld chordWorld Hw Hh H)
    as [H26 Hall].
  revert Hall. apply Forall_impl. intros n (H1 & H2 & H3 & H4).
  change (inject_Z (cssW chordWorld)) with 800 in H2.
  change (inject_Z (cssH chordWorld)) with 600 in H4.
  repeat split; lra.
Defined.

(** ** Resizing, loading and starting *)

(** X6.  [resizeCanvas] never throws, with or without a chart.  It leaves a
    canvas of at least one pixel each way, no wider than the rectangle when
    that is one pixel wide at least, a pixel ratio between 1 and 2.5 (1 when
    the window gives none), the same score fields, clock and chart; without
    a chart the notes are left alone. *)
Theorem resizeCanvas_total (vp : Viewport) (w : World) :
  exists w',
    resizeCanvas vp w = Some w' /\
    cssW w' = Z.max 1 (Qfloor (rect_width vp)) /\
    cssH w' = Z.max 1 (Qfloor (rect_height vp)) /\
    (1 <= cssW w')%Z /\ (1 <= cssH w')%Z /\
    (1 <= rect_width vp -> inject_Z (cssW w') <= rect_width vp) /\
    1 <= dpr w' /\ dpr w' <= 2.5 /\
    (devicePixelRatio vp = None -> dpr w' == 1) /\
    stats w' = stats w /\ clock w' = clock w /\ beatmap w' = beatmap w /\
    (beatmap w = None -> noteStates w' = noteStates w).
Proof.
  unfold resizeCanvas, rebuildRuntimeNotes. cbn [beatmap set_view].
  assert (Hd : 1 <= Qmax 1 (Qmin 2.5 (dprOr1 (devicePixelRatio vp)))
               /\ Qmax 1 (Qmin 2.5 (dprOr1 (devicePixelRatio vp))) <= 2.5)
    by (q_minmax; split; lra).
  assert (Hw : 1 <= rect_width vp ->
               inject_Z (Z.max 1 (Qfloor (rect_width vp))) <= rect_width vp).
  { intro H1. destruct (Z.max_spec 1 (Qfloor (rect_width vp))) as [[_ ->]|[_ ->]].
    - apply Qfloor_le.
    - exact H1. }
  assert (Hn : devicePixelRatio vp = None ->
               Qmax 1 (Qmin 2.5 (dprOr1 (devicePixelRatio vp))) == 1).
  { intros ->. reflexivity. }
  destruct (beatmap w) as [bm|] eqn:Eb; eexists; (split; [reflexivity|]);
    cbn; rewrite ?Eb; repeat split; try lia; try tauto; try discriminate.
Qed.

Lemma fresh_notes_all_left w :
  Forall fresh_note (noteStates w) ->
  countNotesLeft w = List.length (noteStates w).
Proof.
  unfold countNotesLeft. induction 1 as [|n l Hn Hl IH]; [reflexivity|].
  cbn. destruct Hn as (-> & _). cbn. now rewrite IH.
Qed.

(** X7.  [startGame] throws exactly when no chart is loaded.  Otherwise,
    whatever the state was, the game is running, neither paused nor ended,
    the score fields are all zero, every note is pending anew, and the song
    time read at a wall-clock time [later] is [later - now]. *)
Theorem startGame_fresh_run (now nowT : Q) (w : World) :
  (startGame now nowT w = None <-> beatmap w = None) /\
  forall w', startGame now nowT w = Some w' ->
    running (clock w') = true /\ paused (clock w') = false /\
    ended (clock w') = false /\
    stats w' = zeroStats /\
    Forall fresh_note (noteStates w') /\
    countNotesLeft w' = List.length (noteStates w') /\
    beatmap w' = beatmap w /\
    forall later, getSongTimeMs later w' == later - now.
Proof.
  unfold startGame, resetGameState.
  set (w0 := set_stats _ _).
  destruct (beatmap w) as [bm|] eqn:Eb.
  - destruct (rebuildRuntimeNotes_fresh w0 bm Eb)
      as (w1 & Hw1 & Hfresh & _ & Hst & Hck).
    rewrite Hw1. split; [split; discriminate|].
    intros w' H. injection H as <-. cbn.
    do 3 (split; [reflexivity|]).
    split; [exact Hst|]. split; [exact Hfresh|].
    split; [now apply fresh_notes_all_left|].
    split.
    + unfold rebuildRuntimeNotes in Hw1. cbn in Hw1. rewrite Eb in Hw1.
      injection Hw1 as <-. exact Eb.
    + intro later. unfold getSongTimeMs. cbn. ring.
  - assert (Hn : rebuildRuntimeNotes w0 = None).
    { unfold rebuildRuntimeNotes. cbn. now rewrite Eb. }
    rewrite Hn. split; [split; reflexivity|]. intros w' H. discriminate.
Qed.

Lemma startGame_fresh_run_witness :
  stats chordWorld = zeroStats /\ getSongTimeMs 2000 chordWorld == 2000 - 0.
Proof.
  assert (H : startGame 0 0 chordWorld = Some chordWorld)
    by (vm_compute; reflexivity).
  destruct (proj2 (startGame_fresh_run 0 0 chordWorld) chordWorld H)
    as (_ & _ & _ & Hs & _ & _ & _ & Ht).
  split; [exact Hs | exact (Ht 2000)].
Defined.

Lemma rebuildRuntimeNotes_beatmap w w' :
  rebuildRuntimeNotes w = Some w' ->
  beatmap w' = beatmap w /\ cssW w' = cssW w /\ cssH w' = cssH w
  /\ cursorX w' = cursorX w /\ cursorY w' = cursorY w.
Proof.
  unfold rebuildRuntimeNotes. destruct (beatmap w) eqn:E; [|discriminate].
  intro H. injection H as <-. cbn. auto.
Qed.

(** X8.  [init] succeeds on every viewport and chart.  It leaves the game
    stopped with song time 0, the score fields at zero, one pending note per
    note of the chart and the cursor in the middle of the canvas. *)
Theorem init_ready (vp : Viewport) (bm : Beatmap) (nowT : Q) :
  exists w,
    init vp bm nowT = Some w /\
    running (clock w) = false /\ paused (clock w) = false /\
    ended (clock w) = false /\
    (forall now, getSongTimeMs now w = 0) /\
    stats w = zeroStats /\ beatmap w = Some bm /\
    Forall fresh_note (noteStates w) /\
    map tMs (noteStates w) = map def_tMs (notes bm) /\
    cursorX w == inject_Z (cssW w) / 2 /\ cursorY w == inject_Z (cssH w) / 2.
Proof.
  unfold init.
  destruct (resizeCanvas vp initialWorld) as [w1|] eqn:E1;
    [|now vm_compute in E1].
  assert (Hb1 : beatmap w1 = None) by (vm_compute in E1; now injection E1 as <-).
  unfold loadBeatmap.
  destruct (rebuildRuntimeNotes_fresh (set_beatmap (Some bm) w1) bm eq_refl)
    as (w2 & E2 & _).
  rewrite E2. apply rebuildRuntimeNotes_beatmap in E2. destruct E2 as (Hb2 & _).
  unfold resetGameState. set (w0 := set_stats _ _).
  assert (Hb0 : beatmap w0 = Some bm) by exact Hb2.
  destruct (rebuildRuntimeNotes_fresh w0 bm Hb0)
    as (w3 & E3 & Hf & Ht & Hs & Hc).
  rewrite E3. apply rebuildRuntimeNotes_beatmap in E3.
  destruct E3 as (Hb3 & _).
  eexists. split; [reflexivity|].
  cbn. rewrite Hc, Hs, Hb3. cbn.
  do 3 (split; [reflexivity|]).
  split; [intro now; unfold getSongTimeMs; cbn; now rewrite Hc|].
  split; [reflexivity|]. split; [exact Hb0|].
  split; [exact Hf|]. split; [exact Ht|].
  split; field.
Qed.

(** ** Pausing *)

(** X9.  A pause at [now1] followed by a resume at [now2] leaves the game
    running and not paused, with the start time, the notes, the score fields
    and the chart it had.  While paused the time of the pause is recorded
    and every reading of the song clock is
    [now1 - startAtPerfMs - pausedTotalMs], the reading at the pause.  The
    resume adds [now2 - now1] to [pausedTotalMs], so a reading made later is
    [later - startAtPerfMs - (pausedTotalMs + (now2 - now1))]. *)
Theorem togglePause_round_trip (now1 nowT1 now2 nowT2 : Q) (w : World) :
  running (clock w) = true -> paused (clock w) = false ->
  ended (clock w) = false ->
  let w1 := togglePause now1 nowT1 w in
  let w2 := togglePause now2 nowT2 w1 in
  paused (clock w1) = true /\
  pauseAtPerfMs (clock w1) = now1 /\
  (forall later,
     getSongTimeMs later w1
     = now1 - startAtPerfMs (clock w) - pausedTotalMs (clock w)) /\
  (forall later, getSongTimeMs later w1 = getSongTimeMs now1 w) /\
  running (clock w2) = true /\ paused (clock w2) = false /\
  ended (clock w2) = false /\
  startAtPerfMs (clock w2) = startAtPerfMs (clock w) /\
  pausedTotalMs (clock w2) = pausedTotalMs (clock w) + (now2 - now1) /\
  (forall later,
     getSongTimeMs later w2
     = later - startAtPerfMs (clock w)
       - (pausedTotalMs (clock w) + (now2 - now1))) /\
  noteStates w2 = noteStates w /\ stats w2 = stats w /\
  beatmap w2 = beatmap w.
Proof.
  intros Hr Hp He w1 w2. subst w1 w2.
  unfold togglePause, getSongTimeMs. rewrite Hr, Hp, He. cbn.
  rewrite ?Hr, ?Hp, ?He. cbn.
  repeat split; reflexivity.
Qed.

Lemma togglePause_round_trip_witness :
  pausedTotalMs
    (clock (togglePause 5000 5000 (togglePause 1500 1500 chordWorld)))
  = pausedTotalMs (clock chordWorld) + (5000 - 1500) /\
  getSongTimeMs 6000 (togglePause 5000 5000 (togglePause 1500 1500 chordWorld))
  = 6000 - startAtPerfMs (clock chordWorld)
    - (pausedTotalMs (clock chordWorld) + (5000 - 1500)).
Proof.
  pose proof (togglePause_round_trip 1500 1500 5000 5000 chordWorld
                eq_refl eq_refl eq_refl) as H.
  cbv zeta in H.
  destruct H as (_ & _ & _ & _ & _ & _ & _ & _ & Ht & Hl & _).
  split; [exact Ht | exact (Hl 6000)].
Defined.

(** ** Input handlers *)

(** X10.  The three activation paths run the same resolution: a touch, and the
    hit key pressed with the cursor moved to the point, do what a press of
    the left button at that point does. *)
Theorem activation_paths_agree (vp : Viewport) (e : MouseEvent) (now nowT : Q)
  (w : World) :
  button e = 0%Z ->
  on_touchstart vp (mkTouchEvent (clientX e) (clientY e)) now nowT w
  = on_mousedown vp e now nowT w /\
  (running (clock w) = true -> paused (clock w) = false ->
   ended (clock w) = false ->
   on_keydown (mkKeyEvent false CONFIG.KEY_HIT) now nowT (on_mousemove vp e w)
   = on_mousedown vp e now nowT w).
Proof.
  intro Hb. unfold on_touchstart, on_mousedown, on_keydown, on_mousemove.
  rewrite Hb. cbn. split; [reflexivity|].
  intros -> -> ->. reflexivity.
Qed.

Lemma activation_paths_agree_witness :
  on_keydown (mkKeyEvent false CONFIG.KEY_HIT) 2000 2000
    (on_mousemove viewport800 (mkMouseEvent 0 241.6 300) chordWorld)
  = on_mousedown viewport800 (mkMouseEvent 0 241.6 300) 2000 2000 chordWorld.
Proof.
  exact (proj2 (activation_paths_agree viewport800 (mkMouseEvent 0 241.6 300)
                  2000 2000 chordWorld eq_refl) eq_refl eq_refl eq_refl).
Defined.

(** X11.  Activations are dropped, cursor and all, while the game is stopped or
    paused; a press of another button than the left one, an auto-repeated
    key and a key that is neither the hit key nor the space bar are dropped
    in every state. *)
Theorem activations_dropped (now nowT : Q) (w : World) :
  (running (clock w) = false \/ paused (clock w) = true ->
   (forall vp e, on_mousedown vp e now nowT w = w) /\
   (forall vp e, on_touchstart vp e now nowT w = w) /\
   (forall rp, on_keydown (mkKeyEvent rp CONFIG.KEY_HIT) now nowT w = w)) /\
  (forall vp e, button e <> 0%Z -> on_mousedown vp e now nowT w = w) /\
  (forall c, on_keydown (mkKeyEvent true c) now nowT w = w) /\
  (forall rp c, c <> CONFIG.KEY_HIT -> c <> "Space"%string ->
                on_keydown (mkKeyEvent rp c) now nowT w = w).
Proof.
  split; [|split; [|split]].
  - intro H. unfold on_mousedown, on_touchstart, on_keydown. cbn.
    split; [|split].
    + intros vp e. destruct (negb (button e =? 0)%Z); [reflexivity|].
      destruct H as [-> | ->]; [reflexivity|].
      now destruct (negb (running (clock w))).
    + intros vp e. destruct H as [-> | ->]; [reflexivity|].
      now destruct (negb (running (clock w))).
    + intro rp. destruct rp; [reflexivity|].
      destruct H as [-> | ->]; [reflexivity|].
      now destruct (negb (running (clock w))).
  - intros vp e Hb. unfold on_mousedown.
    apply Z.eqb_neq in Hb. now rewrite Hb.
  - intro c. reflexivity.
  - intros rp c Hc Hs. unfold on_keydown. cbn.
    apply String.eqb_neq in Hc, Hs. rewrite Hc, Hs. now destruct rp.
Qed.

Lemma activations_dropped_witness :
  on_mousedown viewport800 (mkMouseEvent 0 241.6 300) 2000 2000
    (togglePause 1500 1500 chordWorld)
  = togglePause 1500 1500 chordWorld.
Proof.
  exact (proj1 (proj1 (activations_dropped 2000 2000
                         (togglePause 1500 1500 chordWorld))
                  (or_intror eq_refl))
           viewport800 (mkMouseEvent 0 241.6 300)).
Defined.

(** ** One activation, one note *)

Lemma count_pending_update f ns : forall i n,
  nth_error ns i = Some n -> state n = pending -> state (f n) <> pending ->
  S (List.length (filter (fun a => NoteState_eqb (state a) pending)
                    (update_note i f ns)))
  = List.length (filter (fun a => NoteState_eqb (state a) pending) ns).
Proof.
  induction ns as [|a ns IH]; intros [|i] n Hn Hp Hf; simpl in Hn;
    try discriminate.
  - injection Hn as ->. cbn. rewrite Hp. cbn.
    destruct (NoteState_eqb (state (f n)) pending) eqn:E; [|reflexivity].
    apply NoteState_eqb_eq in E. contradiction.
  - cbn. destruct (NoteState_eqb (state a) pending); cbn;
      now rewrite <- (IH i n Hn Hp Hf).
Qed.

Lemma spec_eligible_pending t cx cy n :
  spec_eligible t cx cy n = true -> state n = pending.
Proof.
  unfold spec_eligible. intro H.
  apply andb_prop in H. destruct H as [H _].
  apply andb_prop in H. destruct H as [H _].
  now apply NoteState_eqb_eq.
Qed.

(** X12.  An activation judges one note at most, chords included: when it picks
    a note, one note less is pending and one hit more is counted; when it
    picks none, the notes and the score fields are what they were.  The
    array keeps its length. *)
Theorem attemptHit_one_note (now nowT cx cy : Q) (w : World) :
  let w' := attemptHit now nowT cx cy w in
  List.length (noteStates w') = List.length (noteStates w) /\
  match attemptHit_pick now cx cy w with
  | Some _ =>
      S (countNotesLeft w') = countNotesLeft w /\
      totalJudged (stats w') = S (totalJudged (stats w)) /\
      totalHit (stats w') = S (totalHit (stats w)) /\
      m (stats w') = m (stats w)
  | None =>
      countNotesLeft w' = countNotesLeft w /\ stats w' = stats w
  end.
Proof.
  intro w'. subst w'. rewrite attemptHit_unfold.
  pose proof (attemptHit_pick_spec now cx cy w) as Hp.
  destruct (attemptHit_pick now cx cy w) as [[i n]|]; [|repeat split].
  destruct Hp as (Hn & He & _). cbv zeta.
  unfold countNotesLeft. rewrite applyJudgment_noteStates.
  split; [apply update_note_length|].
  split.
  - apply (count_pending_update _ _ i n Hn).
    + now apply spec_eligible_pending in He.
    + discriminate.
  - unfold applyJudgment. destruct (judge _); repeat split.
Qed.

Lemma attemptHit_hits now nowT cx cy w i n :
  attemptHit_pick now cx cy w = Some (i, n) ->
  nth_error (noteStates w) i = Some n /\
  nth_error (noteStates (attemptHit now nowT cx cy w)) i
  = Some (spec_hitNote (getSongTimeMs now w) n) /\
  totalHit (stats (attemptHit now nowT cx cy w)) = S (totalHit (stats w)).
Proof.
  intro E.
  pose proof (attemptHit_pick_spec now cx cy w) as Hp.
  rewrite attemptHit_unfold. rewrite E in *. cbv zeta in *.
  destruct Hp as (Hn & _ & _).
  split; [exact Hn|]. split.
  - rewrite applyJudgment_noteStates.
    now rewrite (update_note_same _ _ _ _ Hn).
  - unfold applyJudgment. destruct (judge _); reflexivity.
Qed.

(** X13.  An activation hits exactly when some note is eligible: the note
    picked is then a hit in the array that [attemptHit] leaves, stamped with
    the song time, and one hit more is counted; and [attemptHit] only toasts
    exactly when no note is eligible.  So an activation at the centre of a
    pending note, within 160 ms of its time, always hits: that note, or a
    pending note whose time is as near or nearer. *)
Theorem attemptHit_pick_complete (now nowT cx cy : Q) (w : World) :
  let t := getSongTimeMs now w in
  ((exists i n,
      attemptHit_pick now cx cy w = Some (i, n) /\
      nth_error (noteStates w) i = Some n /\
      nth_error (noteStates (attemptHit now nowT cx cy w)) i
      = Some (spec_hitNote t n) /\
      totalHit (stats (attemptHit now nowT cx cy w))
      = S (totalHit (stats w))) <->
   (exists n, In n (noteStates w) /\ spec_eligible t cx cy n = true)) /\
  (attemptHit now nowT cx cy w = toast nowT TNoHittable w <->
   (forall n, In n (noteStates w) -> spec_eligible t cx cy n = false)) /\
  forall n,
    In n (noteStates w) -> state n = pending -> Qabs (t - tMs n) <= 160 ->
    exists i n',
      attemptHit_pick now (x n) (y n) w = Some (i, n') /\
      nth_error (noteStates w) i = Some n' /\
      state n' = pending /\
      Qabs (t - tMs n') <= Qabs (t - tMs n) /\
      nth_error (noteStates (attemptHit now nowT (x n) (y n) w)) i
      = Some (spec_hitNote t n') /\
      totalHit (stats (attemptHit now nowT (x n) (y n) w))
      = S (totalHit (stats w)).
Proof.
  intro t.
  assert (Hiff : forall px py,
            (exists i n, attemptHit_pick now px py w = Some (i, n)) <->
            (exists n, In n (noteStates w) /\ spec_eligible t px py n = true)).
  { intros px py. pose proof (attemptHit_pick_spec now px py w) as Hp.
    fold t in Hp. split.
    - intros (i & n & E). rewrite E in Hp. destruct Hp as (Hn & He & _).
      exists n. split; [now apply nth_error_In in Hn | exact He].
    - intros (n & Hin & He).
      destruct (attemptHit_pick now px py w) as [[i n']|]; [eauto|].
      rewrite (Hp n Hin) in He. discriminate. }
  split; [|split].
  - split.
    + intros (i & n & E & _). apply Hiff. eauto.
    + intro H. apply Hiff in H. destruct H as (i & n & E).
      destruct (attemptHit_hits now nowT cx cy w i n E) as (Hn & Hh & Hs).
      exists i, n. split; [exact E|]. split; [exact Hn|].
      split; [exact Hh | exact Hs].
  - pose proof (attemptHit_pick_spec now cx cy w) as Hp.
    pose proof (attemptHit_unfold now nowT cx cy w) as Hu.
    fold t in Hp.
    destruct (attemptHit_pick now cx cy w) as [[i n]|] eqn:E.
    + destruct (attemptHit_hits now nowT cx cy w i n E) as (Hn & _ & Hs).
      destruct Hp as (_ & He & _). split.
      * intro Hw. rewrite Hw in Hs. cbn in Hs. lia.
      * intro Hnone. apply nth_error_In in Hn.
        rewrite (Hnone n Hn) in He. discriminate.
    + split; [intros _; exact Hp | intros _; exact Hu].
  - intros n Hin Hs Hw.
    assert (He : spec_eligible t (x n) (y n) n = true).
    { unfold spec_eligible. rewrite Hs. cbn.
      apply andb_true_intro. split; apply Qleb_true; [exact Hw|].
      unfold dist2. cbv zeta.
      assert (Hr : forall a : Q, 0 <= a * a) by (intro a; nra).
      pose proof (Hr (r n)).
      setoid_replace (x n - x n) with 0 by ring.
      setoid_replace (y n - y n) with 0 by ring. lra. }
    destruct (proj2 (Hiff (x n) (y n))) as (i & n' & E); [eauto|].
    destruct (attemptHit_hits now nowT (x n) (y n) w i n' E)
      as (Hn' & Hh & Hst).
    exists i, n'. split; [exact E|]. split; [exact Hn'|].
    pose proof (attemptHit_pick_spec now (x n) (y n) w) as Hp.
    fold t in Hp. rewrite E in Hp. destruct Hp as (_ & He' & Hmin).
    split; [now apply spec_eligible_pending in He'|].
    split; [|split; [exact Hh | exact Hst]].
    apply In_nth_error in Hin. destruct Hin as [j Hj].
    destruct (Hmin j n Hj He) as [Hnlt _].
    unfold lex_lt, spec_key in Hnlt. cbn in Hnlt.
    destruct (Qlt_le_dec (Qabs (t - tMs n)) (Qabs (t - tMs n'))) as [L|L];
      [|exact L].
    exfalso. apply Hnlt. now left.
Qed.

Lemma attemptHit_pick_complete_witness :
  exists i n',
    attemptHit_pick 2100 (x chordA) (y chordA) chordWorld = Some (i, n') /\
    nth_error (noteStates chordWorld) i = Some n' /\
    state n' = pending /\
    Qabs (getSongTimeMs 2100 chordWorld - tMs n')
    <= Qabs (getSongTimeMs 2100 chordWorld - tMs chordA) /\
    nth_error
      (noteStates (attemptHit 2100 2100 (x chordA) (y chordA) chordWorld)) i
    = Some (spec_hitNote (getSongTimeMs 2100 chordWorld) n') /\
    totalHit (stats (attemptHit 2100 2100 (x chordA) (y chordA) chordWorld))
    = S (totalHit (stats chordWorld)).
Proof.
  apply (proj2 (proj2 (attemptHit_pick_complete 2100 2100 (x chordA) (y chordA)
                         chordWorld))
           chordA).
  - right. left. reflexivity.
  - reflexivity.
  - vm_compute. discriminate.
Defined.

(** ** The life of a note *)

Lemma Forall2_note_step_refl ns : Forall2 note_step ns ns.
Proof. induction ns; constructor; [constructor | assumption]. Qed.

Lemma Forall2_update_note f ns : forall i n,
  nth_error ns i = Some n -> note_step n (f n) ->
  Forall2 note_step ns (update_note i f ns).
Proof.
  induction ns as [|a ns IH]; intros [|i] n Hn Hs; simpl in Hn;
    try discriminate; simpl.
  - injection Hn as ->. constructor; [exact Hs | apply Forall2_note_step_refl].
  - constructor; [constructor | now apply (IH i n)].
Qed.

Lemma attemptHit_note_steps now nowT cx cy w :
  Forall2 note_step (noteStates w) (noteStates (attemptHit now nowT cx cy w)).
Proof.
  rewrite attemptHit_unfold.
  pose proof (attemptHit_pick_spec now cx cy w) as Hp.
  destruct (attemptHit_pick now cx cy w) as [[i n]|];
    [|apply Forall2_note_step_refl].
  destruct Hp as (Hn & He & _). cbv zeta.
  rewrite applyJudgment_noteStates.
  apply (Forall2_update_note _ _ i n Hn).
  exact (note_hit n (getSongTimeMs now w) cx cy He).
Qed.

Lemma sweep_note_steps t ns :
  Forall2 note_step ns (map (spec_sweepNote t) ns).
Proof.
  induction ns as [|n ns IH]; [constructor|].
  cbn. constructor; [|exact IH].
  unfold spec_sweepNote. destruct (spec_expired t n) eqn:E.
  - now apply note_miss.
  - constructor.
Qed.

Lemma tick_noteStates now nowT nowU w w' :
  tick now nowT nowU w = Some w' ->
  noteStates w' = noteStates w
  \/ noteStates w'
     = map (spec_sweepNote (getSongTimeMs now w)) (noteStates w).
Proof.
  unfold tick.
  destruct (running (clock w) && negb (paused (clock w))
            && negb (ended (clock w))).
  - destruct (nth_error _ _); [|discriminate].
    destruct (Qgtb _ _ && _); intro H; injection H as <-; right;
      rewrite updateToast_noteStates; cbn;
      apply processAutoMisses_noteStates.
  - intro H. injection H as <-. left. apply updateToast_noteStates.
Qed.

Lemma togglePause_noteStates now nowT w :
  noteStates (togglePause now nowT w) = noteStates w
  /\ stats (togglePause now nowT w) = stats w.
Proof.
  unfold togglePause.
  destruct (negb (running (clock w)) || ended (clock w)); [easy|].
  now destruct (negb (paused (clock w))).
Qed.

(** An event that does not rebuild the notes takes every note one step of
    its life at most. *)
Lemma dispatch_note_steps ev w w' :
  rebuilds ev = false -> dispatch ev w = Some w' ->
  Forall2 note_step (noteStates w) (noteStates w').
Proof.
  intros Hr Hd. destruct ev; try discriminate; simpl in Hd.
  - injection Hd as <-. apply Forall2_note_step_refl.
  - injection Hd as <-. unfold on_mousedown.
    destruct (negb (button e =? 0)%Z); [apply Forall2_note_step_refl|].
    destruct (negb (running (clock w))); [apply Forall2_note_step_refl|].
    destruct (paused (clock w) || ended (clock w));
      [apply Forall2_note_step_refl|].
    apply (attemptHit_note_steps now nowT _ _ (set_cursor _ _ w)).
  - injection Hd as <-. unfold on_touchstart.
    destruct (negb (running (clock w))); [apply Forall2_note_step_refl|].
    destruct (paused (clock w) || ended (clock w));
      [apply Forall2_note_step_refl|].
    apply (attemptHit_note_steps now nowT _ _ (set_cursor _ _ w)).
  - injection Hd as <-. unfold on_keydown.
    destruct (repeat e); [apply Forall2_note_step_refl|].
    destruct (String.eqb (code e) CONFIG.KEY_HIT).
    + destruct (negb (running (clock w))); [apply Forall2_note_step_refl|].
      destruct (paused (clock w) || ended (clock w));
        [apply Forall2_note_step_refl|].
      destruct (String.eqb (code e) "Space"); [|apply attemptHit_note_steps].
      destruct (negb _ || _); [apply attemptHit_note_steps|].
      rewrite (proj1 (togglePause_noteStates _ _ _)).
      apply attemptHit_note_steps.
    + destruct (String.eqb (code e) "Space"); [|apply Forall2_note_step_refl].
      destruct (negb _ || _); [apply Forall2_note_step_refl|].
      rewrite (proj1 (togglePause_noteStates _ _ _)).
      apply Forall2_note_step_refl.
  - injection Hd as <-. rewrite (proj1 (togglePause_noteStates _ _ _)).
    apply Forall2_note_step_refl.
  - apply tick_noteStates in Hd. destruct Hd as [-> | ->];
      [apply Forall2_note_step_refl | apply sweep_note_steps].
Qed.

Lemma note_step_final n n' :
  note_step n n' ->
  (state n <> pending -> n' = n) /\
  (n' = n \/ (state n = pending /\ state n' <> pending)) /\
  tMs n' = tMs n /\ x n' = x n /\ y n' = y n /\ r n' = r n.
Proof.
  intros [|t cx cy He|t He].
  - repeat split; auto.
  - apply spec_eligible_pending in He. repeat split; try easy.
    right. split; [exact He | discriminate].
  - unfold spec_expired in He. apply andb_prop in He. destruct He as [He _].
    apply NoteState_eqb_eq in He. repeat split; try easy.
    right. split; [exact He | discriminate].
Qed.

(** X14.  Under every event but a resize and a (re)start, the array of notes
    keeps its length, a note that was judged is kept as it is, field by
    field, and a pending note stays as it is or becomes a judged note with
    the same time, centre and radius. *)
Theorem judged_note_is_final (ev : Event) (w w' : World) :
  rebuilds ev = false -> dispatch ev w = Some w' ->
  List.length (noteStates w') = List.length (noteStates w) /\
  forall i n, nth_error (noteStates w) i = Some n ->
    exists n',
      nth_error (noteStates w') i = Some n' /\
      (state n <> pending -> n' = n) /\
      (n' = n \/ (state n = pending /\ state n' <> pending)) /\
      tMs n' = tMs n /\ x n' = x n /\ y n' = y n /\ r n' = r n.
Proof.
  intros Hr Hd. pose proof (dispatch_note_steps ev w w' Hr Hd) as H.
  split; [symmetry; now apply Forall2_length in H|].
  induction H as [|a b l l' Hab Hl IH]; intros [|i] n Hn; simpl in Hn;
    try discriminate.
  - injection Hn as ->. exists b. split; [reflexivity|].
    now apply note_step_final.
  - now apply IH.
Qed.

Lemma judged_note_is_final_witness :
  exists n',
    nth_error
      (noteStates
         (on_mousedown viewport800 (mkMouseEvent 0 188.8 148.8) 420 420
            sweepWorld)) 0
    = Some n' /\ n' = sweepHit.
Proof.
  destruct (proj2 (judged_note_is_final
                     (EvMouseDown viewport800 (mkMouseEvent 0 188.8 148.8)
                        420 420)
                     sweepWorld _ eq_refl eq_refl) 0%nat sweepHit eq_refl)
    as (n' & Hn & Hfinal & _).
  exists n'. split; [exact Hn|]. apply Hfinal. discriminate.
Defined.

Lemma note_step_timing n n' :
  note_step n n' -> note_timing n -> note_timing n'.
Proof.
  intros [|t cx cy He|t He] Hn; [exact Hn| |].
  - unfold note_timing, spec_hitNote. cbn. exists t.
    repeat split. unfold spec_eligible in He.
    apply andb_prop in He. destruct He as [He _].
    apply andb_prop in He. destruct He as [_ He]. now apply Qleb_true.
  - unfold note_timing, spec_missed. cbn. exists t.
    repeat split. unfold spec_expired in He.
    apply andb_prop in He. destruct He as [_ He]. now apply Qgtb_true.
Qed.

Lemma fresh_note_timing n : fresh_note n -> note_timing n.
Proof. intros (H & _). unfold note_timing. now rewrite H. Qed.

Lemma rebuildRuntimeNotes_Some_fresh w w' :
  rebuildRuntimeNotes w = Some w' ->
  Forall fresh_note (noteStates w') /\ stats w' = stats w
  /\ clock w' = clock w.
Proof.
  intro H. destruct (beatmap w) as [bm|] eqn:Eb.
  - destruct (rebuildRuntimeNotes_fresh w bm Eb) as (w2 & E2 & Hf & _ & Hs & Hc).
    rewrite E2 in H. injection H as <-. auto.
  - unfold rebuildRuntimeNotes in H. rewrite Eb in H. discriminate.
Qed.

Lemma startGame_Some_fresh now nowT w w' :
  startGame now nowT w = Some w' ->
  Forall fresh_note (noteStates w') /\ stats w' = zeroStats.
Proof.
  unfold startGame, resetGameState.
  destruct (rebuildRuntimeNotes _) as [w1|] eqn:E1; [|discriminate].
  intro H. injection H as <-.
  apply rebuildRuntimeNotes_Some_fresh in E1. destruct E1 as (Hf & Hs & _).
  split; [exact Hf | exact Hs].
Qed.

Lemma init_Some_fresh vp bm nowT w :
  init vp bm nowT = Some w ->
  Forall fresh_note (noteStates w) /\ stats w = zeroStats.
Proof.
  unfold init.
  destruct (resizeCanvas vp initialWorld) as [w1|]; [|discriminate].
  destruct (loadBeatmap bm nowT w1) as [w2|]; [|discriminate].
  unfold resetGameState.
  destruct (rebuildRuntimeNotes _) as [w3|] eqn:E3; [|discriminate].
  intro H. injection H as <-.
  apply rebuildRuntimeNotes_Some_fresh in E3. destruct E3 as (Hf & Hs & _).
  split; [exact Hf | exact Hs].
Qed.

(** An event that rebuilds the notes leaves fresh notes, or, a resize with
    no chart loaded, the notes it found. *)
Lemma dispatch_rebuild_notes ev w w' :
  rebuilds ev = true -> dispatch ev w = Some w' ->
  Forall fresh_note (noteStates w') \/ noteStates w' = noteStates w.
Proof.
  intros Hr Hd. destruct ev; try discriminate; simpl in Hd.
  - unfold resizeCanvas in Hd. cbn [beatmap set_view] in Hd.
    destruct (beatmap w) as [bm|] eqn:Eb.
    + apply rebuildRuntimeNotes_Some_fresh in Hd. left. apply Hd.
    + injection Hd as <-. now right.
  - left. now apply startGame_Some_fresh in Hd.
  - left. now apply startGame_Some_fresh in Hd.
Qed.

(** X15.  In every state of a session, a hit note records a judgment time
    within 160 ms of the time of the note, the offset between the two, and
    the tier [judge] gives that offset; a missed note records a judgment
    time more than 160 ms past its time, the offset, and Miss. *)
Theorem judged_notes_timing (bm : Beatmap) (w : World) :
  reachable bm w -> Forall note_timing (noteStates w).
Proof.
  induction 1 as [vp nowT w Hi | ev w w' _ IH Hd].
  - apply init_Some_fresh in Hi. destruct Hi as [Hf _].
    revert Hf. apply Forall_impl. exact fresh_note_timing.
  - destruct (rebuilds ev) eqn:Er.
    + destruct (dispatch_rebuild_notes ev w w' Er Hd) as [Hf | ->];
        [|exact IH].
      revert Hf. apply Forall_impl. exact fresh_note_timing.
    + pose proof (dispatch_note_steps ev w w' Er Hd) as Hs.
      clear Hd. induction Hs as [|a b l l' Hab Hl IHl]; [constructor|].
      inversion IH; subst. constructor.
      * now apply (note_step_timing a b).
      * now apply IHl.
Qed.

Lemma judged_notes_timing_witness :
  Forall note_timing (noteStates sweepWorld).
Proof. exact (judged_notes_timing threeChart sweepWorld sweepWorld_reachable). Defined.

(** ** What an event does to the notes and to the score fields together *)

Lemma attemptHit_set_cursor now nowT cx cy a b w :
  noteStates (attemptHit now nowT cx cy (set_cursor a b w))
  = noteStates (attemptHit now nowT cx cy w)
  /\ stats (attemptHit now nowT cx cy (set_cursor a b w))
     = stats (attemptHit now nowT cx cy w).
Proof.
  unfold attemptHit. cbn [noteStates set_cursor].
  change (getSongTimeMs now (set_cursor a b w)) with (getSongTimeMs now w).
  destruct (List.length _ =? 0)%nat; [split; reflexivity|].
  destruct (array_sort compareCandidates _) as [|c tl]; [split; reflexivity|].
  unfold applyJudgment. destruct (judge _); split; reflexivity.
Qed.

(** After an event that does not rebuild the notes, the notes and the score
    fields are what they were, or what one activation, or one sweep, makes of
    them. *)
Lemma dispatch_core ev w w' :
  rebuilds ev = false -> dispatch ev w = Some w' ->
  (noteStates w' = noteStates w /\ stats w' = stats w)
  \/ (exists now nowT cx cy,
        noteStates w' = noteStates (attemptHit now nowT cx cy w)
        /\ stats w' = stats (attemptHit now nowT cx cy w))
  \/ (exists t,
        noteStates w' = noteStates (processAutoMisses t w)
        /\ stats w' = stats (processAutoMisses t w)).
Proof.
  intros Hr Hd. destruct ev; try discriminate; simpl in Hd.
  - injection Hd as <-. now left.
  - injection Hd as <-. unfold on_mousedown.
    destruct (negb (button e =? 0)%Z); [now left|].
    destruct (negb (running (clock w))); [now left|].
    destruct (paused (clock w) || ended (clock w)); [now left|].
    right. left. eexists now, nowT, _, _. apply attemptHit_set_cursor.
  - injection Hd as <-. unfold on_touchstart.
    destruct (negb (running (clock w))); [now left|].
    destruct (paused (clock w) || ended (clock w)); [now left|].
    right. left. eexists now, nowT, _, _. apply attemptHit_set_cursor.
  - injection Hd as <-. unfold on_keydown.
    destruct (repeat e); [now left|].
    destruct (String.eqb (code e) CONFIG.KEY_HIT).
    + destruct (negb (running (clock w))); [now left|].
      destruct (paused (clock w) || ended (clock w)); [now left|].
      right. left. exists now, nowT, (cursorX w), (cursorY w).
      destruct (String.eqb (code e) "Space"); [|now split].
      destruct (negb _ || _); [now split|]. apply togglePause_noteStates.
    + destruct (String.eqb (code e) "Space"); [|now left].
      destruct (negb _ || _); [now left|]. left. apply togglePause_noteStates.
  - injection Hd as <-. left. apply togglePause_noteStates.
  - unfold tick in Hd.
    destruct (running (clock w) && negb (paused (clock w))
              && negb (ended (clock w))).
    + destruct (nth_error _ _); [|discriminate].
      right. right. exists (getSongTimeMs now w).
      destruct (Qgtb _ _ && _); injection Hd as <-;
        rewrite updateToast_noteStates, updateToast_stats; now split.
    + injection Hd as <-. left.
      now rewrite updateToast_noteStates, updateToast_stats.
Qed.

Lemma judge_not_miss d : judge d <> JM.
Proof. destruct (judge_cases d) as [-> | [-> | ->]]; discriminate. Qed.

Lemma attemptHit_stats now nowT cx cy w :
  stats (attemptHit now nowT cx cy w) = stats w
  \/ exists j, j <> JM
               /\ stats (attemptHit now nowT cx cy w)
                  = spec_hitStats j (stats w).
Proof.
  rewrite attemptHit_unfold.
  destruct (attemptHit_pick now cx cy w) as [[i n]|]; [|now left].
  right. cbv zeta. exists (judge (getSongTimeMs now w - tMs n)).
  split; [apply judge_not_miss|].
  unfold applyJudgment, spec_hitStats.
  destruct (judge_cases (getSongTimeMs now w - tMs n)) as [-> | [-> | ->]];
    reflexivity.
Qed.

Lemma count_pending_sweep t ns :
  (List.length (filter (fun a => NoteState_eqb (state a) pending)
                  (map (spec_sweepNote t) ns))
   + List.length (filter (spec_expired t) ns)
   = List.length (filter (fun a => NoteState_eqb (state a) pending) ns))%nat.
Proof.
  induction ns as [|n ns IH]; [reflexivity|].
  cbn [map filter]. unfold spec_sweepNote at 1.
  destruct (spec_expired t n) eqn:E.
  - assert (Hp : NoteState_eqb (state n) pending = true).
    { unfold spec_expired in E. now apply andb_prop in E. }
    rewrite Hp. cbn. lia.
  - destruct (NoteState_eqb (state n) pending); cbn; lia.
Qed.

Lemma accounted_core w1 w2 :
  noteStates w1 = noteStates w2 -> stats w1 = stats w2 ->
  accounted w2 -> accounted w1.
Proof. unfold accounted, countNotesLeft. now intros -> ->. Qed.

Lemma accounted_attemptHit now nowT cx cy w :
  accounted w -> accounted (attemptHit now nowT cx cy w).
Proof.
  unfold accounted, countNotesLeft. intro H. rewrite attemptHit_unfold.
  pose proof (attemptHit_pick_spec now cx cy w) as Hp.
  destruct (attemptHit_pick now cx cy w) as [[i n]|]; [|exact H].
  destruct Hp as (Hn & He & _). cbv zeta.
  rewrite applyJudgment_noteStates, update_note_length.
  assert (Hc := count_pending_update
                  (fun a => mkRuntimeNote (tMs a) (x a) (y a) (r a) hit
                              (Some (getSongTimeMs now w))
                              (Some (getSongTimeMs now w - tMs n))
                              (Some (judge (getSongTimeMs now w - tMs n))))
                  (noteStates w) i n Hn (spec_eligible_pending _ _ _ _ He)).
  assert (Hj : totalJudged
                 (stats (applyJudgment i (getSongTimeMs now w)
                           (getSongTimeMs now w - tMs n)
                           (judge (getSongTimeMs now w - tMs n)) nowT w))
               = S (totalJudged (stats w))).
  { unfold applyJudgment. now destruct (judge _). }
  rewrite Hj. specialize (Hc ltac:(discriminate)). lia.
Qed.

Lemma accounted_processAutoMisses t w :
  accounted w -> accounted (processAutoMisses t w).
Proof.
  unfold accounted, countNotesLeft, processAutoMisses.
  rewrite sweepNotes_spec. cbn. rewrite length_map.
  pose proof (count_pending_sweep t (noteStates w)). lia.
Qed.

Lemma accounted_fresh w :
  Forall fresh_note (noteStates w) -> stats w = zeroStats -> accounted w.
Proof.
  intros Hf Hs. unfold accounted.
  rewrite (fresh_notes_all_left w Hf), Hs. reflexivity.
Qed.

(** X16.  Every note is pending or counted: [init] leaves the number of pending
    notes plus [totalJudged] equal to the number of notes, and every event
    but a resize keeps it so. *)
Theorem pending_accounting :
  (forall vp bm nowT w, init vp bm nowT = Some w -> accounted w) /\
  (forall ev w w',
     is_resize ev = false -> accounted w -> dispatch ev w = Some w' ->
     accounted w').
Proof.
  split.
  - intros vp bm nowT w Hi. apply init_Some_fresh in Hi.
    now apply accounted_fresh.
  - intros ev w w' Hz Ha Hd. destruct (rebuilds ev) eqn:Er.
    + destruct ev; try discriminate; simpl in Hd;
        apply startGame_Some_fresh in Hd; now apply accounted_fresh.
    + destruct (dispatch_core ev w w' Er Hd)
        as [[Hn Hs] | [(now & nowT & cx & cy & Hn & Hs) | (t & Hn & Hs)]].
      * now apply (accounted_core w' w).
      * apply (accounted_core _ _ Hn Hs). now apply accounted_attemptHit.
      * apply (accounted_core _ _ Hn Hs). now apply accounted_processAutoMisses.
Qed.

Lemma pending_accounting_witness :
  accounted sweepWorld /\
  accounted (processAutoMisses 661 sweepWorld).
Proof.
  assert (H : accounted sweepWorld) by (vm_compute; reflexivity).
  split; [exact H|].
  apply (proj2 pending_accounting (EvFrame 661 661 661) sweepWorld
           (orInitial (tick 661 661 661 sweepWorld)) eq_refl H).
  vm_compute. reflexivity.
Defined.

(** ** The score fields along a session *)

Lemma Qnat_succ a : Qnat (S a) == Qnat a + 1.
Proof.
  replace (S a) with (a + 1)%nat by lia. rewrite Qnat_plus. reflexivity.
Qed.

Lemma spec_baseScore_nonneg j : 0 <= spec_baseScore j.
Proof. destruct j; cbn; lra. Qed.

(** What an event that does not start a run does to the score fields. *)
Lemma dispatch_stats_step ev w w' :
  is_start ev = false -> dispatch ev w = Some w' ->
  stats_step (stats w) (stats w').
Proof.
  intros Hs Hd. destruct (rebuilds ev) eqn:Er.
  - destruct ev; try discriminate. simpl in Hd.
    rewrite (resizeCanvas_stats _ _ _ Hd). constructor.
  - destruct (dispatch_core ev w w' Er Hd)
      as [[_ ->] | [(now & nowT & cx & cy & _ & ->) | (t & _ & ->)]].
    + constructor.
    + destruct (attemptHit_stats now nowT cx cy w) as [-> | (j & Hj & ->)];
        [constructor | now constructor].
    + unfold processAutoMisses. rewrite sweepNotes_spec. cbn. constructor.
Qed.

Lemma stats_step_bounds st st' :
  stats_step st st' -> stats_bounds st -> stats_bounds st'.
Proof.
  intros [|j Hj|k] (H1 & H2 & H3 & H4 & H5); [now repeat split| |].
  - unfold stats_bounds, spec_hitStats.
    cbn [score combo maxCombo p g o m totalJudged totalHit].
    pose proof (Qnat_nonneg (combo st)) as Hc.
    pose proof (Qnat_succ (combo st)) as Ec.
    pose proof (Qnat_succ (p st)) as Ep.
    pose proof (Qnat_succ (g st)) as Eg.
    pose proof (Qnat_succ (o st)) as Eo.
    destruct j; try contradiction;
      cbn [score combo maxCombo p g o m totalJudged totalHit spec_baseScore];
      repeat split; try lia; lra.
  - unfold stats_bounds, spec_sweepStats. cbn.
    destruct (k =? 0)%nat; repeat split; try lia; exact H5.
Qed.

Lemma stats_bounds_zero : stats_bounds zeroStats.
Proof.
  unfold stats_bounds, zeroStats.
  cbn [score combo maxCombo p g o m totalJudged totalHit].
  repeat split; try lia. change (Qnat 0) with 0. lra.
Qed.

(** X17.  In every state of a session: [combo <= maxCombo <= totalHit],
    [totalHit] is the number of Perfect, Good and Ok judgments,
    [totalJudged] adds the misses, and the score is at least
    [300 p + 150 g + 60 o]: the combo multiplier never takes anything away
    from the base scores. *)
Theorem reachable_stats_bounds (bm : Beatmap) (w : World) :
  reachable bm w -> stats_bounds (stats w).
Proof.
  induction 1 as [vp nowT w Hi | ev w w' _ IH Hd].
  - apply init_Some_fresh in Hi. destruct Hi as [_ ->]. exact stats_bounds_zero.
  - destruct (is_start ev) eqn:Es.
    + destruct ev; try discriminate; simpl in Hd;
        apply startGame_Some_fresh in Hd; destruct Hd as [_ ->];
        exact stats_bounds_zero.
    + apply (stats_step_bounds (stats w)); [|exact IH].
      now apply (dispatch_stats_step ev).
Qed.

Lemma reachable_stats_bounds_witness : stats_bounds (stats sweepWorld).
Proof.
  exact (reachable_stats_bounds threeChart sweepWorld sweepWorld_reachable).
Defined.

(** X18.  No event but a (re)start takes anything back: the score, [maxCombo],
    [totalJudged], [totalHit] and the four tier counts never decrease, and
    the combo stays, grows by one, or falls to 0. *)
Theorem counters_never_decrease (ev : Event) (w w' : World) :
  is_start ev = false -> dispatch ev w = Some w' ->
  score (stats w) <= score (stats w') /\
  (maxCombo (stats w) <= maxCombo (stats w'))%nat /\
  (totalJudged (stats w) <= totalJudged (stats w'))%nat /\
  (totalHit (stats w) <= totalHit (stats w'))%nat /\
  (p (stats w) <= p (stats w'))%nat /\ (g (stats w) <= g (stats w'))%nat /\
  (o (stats w) <= o (stats w'))%nat /\ (m (stats w) <= m (stats w'))%nat /\
  (combo (stats w') = combo (stats w)
   \/ combo (stats w') = S (combo (stats w))
   \/ combo (stats w') = 0%nat).
Proof.
  intros Hs Hd. pose proof (dispatch_stats_step ev w w' Hs Hd) as H.
  destruct H as [|j Hj|k].
  - repeat split; try lia; lra.
  - unfold spec_hitStats.
    cbn [score combo maxCombo p g o m totalJudged totalHit].
    pose proof (Qnat_nonneg (combo (stats w))) as Hc.
    pose proof (Qnat_succ (combo (stats w))) as Ec.
    pose proof (spec_baseScore_nonneg j) as Hb.
    split; [nra|].
    destruct j; repeat split; lia.
  - unfold spec_sweepStats.
    cbn [score combo maxCombo p g o m totalJudged totalHit].
    destruct (k =? 0)%nat; repeat split; try lia; lra.
Qed.

Lemma counters_never_decrease_witness :
  score (stats sweepWorld) <= score (stats (processAutoMisses 661 sweepWorld)).
Proof.
  assert (H : dispatch (EvFrame 661 661 661) sweepWorld
              = Some (orInitial (tick 661 661 661 sweepWorld)))
    by (vm_compute; reflexivity).
  exact (proj1 (counters_never_decrease (EvFrame 661 661 661) sweepWorld _
                  eq_refl H)).
Defined.

(** ** Frames *)

(** A frame of a run that is going on. *)
Lemma tick_running now nowT nowU w last :
  running (clock w) = true -> paused (clock w) = false ->
  ended (clock w) = false ->
  nth_error (noteStates w) (List.length (noteStates w) - 1) = Some last ->
  let t := getSongTimeMs now w in
  exists w',
    tick now nowT nowU w = Some w' /\
    noteStates w' = map (spec_sweepNote t) (noteStates w) /\
    stats w' = stats (processAutoMisses t w) /\
    ended (clock w')
    = Qgtb t (tMs last + 160 + 260 + 200)
      && (countNotesLeft (processAutoMisses t w) =? 0)%nat.
Proof.
  intros Hr Hp He Hlast t. unfold tick. fold t. rewrite Hr, Hp, He.
  cbn [andb negb].
  rewrite processAutoMisses_noteStates, length_map.
  rewrite (map_nth_error (spec_sweepNote t) _ _ Hlast).
  rewrite tMs_spec_sweepNote.
  unfold CONFIG.HIT_WINDOW_MS, CONFIG.AFTER_MS.
  destruct (Qgtb t (tMs last + 160 + 260 + 200)
            && (countNotesLeft (processAutoMisses t w) =? 0)%nat) eqn:E;
    eexists; (split; [reflexivity|]);
    rewrite updateToast_noteStates, updateToast_stats, updateToast_clock; cbn;
    rewrite ?processAutoMisses_noteStates, ?processAutoMisses_clock;
    repeat split; auto.
Qed.

Lemma sweep_none_left t ns :
  (forall n, In n ns -> tMs n + 160 < t) ->
  List.length (filter (fun a => NoteState_eqb (state a) pending)
                 (map (spec_sweepNote t) ns)) = 0%nat.
Proof.
  intro H. induction ns as [|n ns IH]; [reflexivity|].
  cbn [map filter].
  assert (Hn : tMs n + 160 < t) by (apply H; now left).
  apply Qgtb_true in Hn.
  assert (E : NoteState_eqb (state (spec_sweepNote t n)) pending = false).
  { unfold spec_sweepNote, spec_expired. rewrite Hn.
    destruct (NoteState_eqb (state n) pending) eqn:E; cbn; [reflexivity|].
    exact E. }
  rewrite E. apply IH. intros a Ha. apply H. now right.
Qed.

Lemma tick_latest_core now nowT nowU w last :
  running (clock w) = true -> paused (clock w) = false ->
  ended (clock w) = false ->
  nth_error (noteStates w) (List.length (noteStates w) - 1) = Some last ->
  (forall n, In n (noteStates w) -> tMs n <= tMs last) ->
  exists w',
    tick now nowT nowU w = Some w' /\
    noteStates w'
    = map (spec_sweepNote (getSongTimeMs now w)) (noteStates w) /\
    (ended (clock w') = true <-> tMs last + 620 < getSongTimeMs now w).
Proof.
  intros Hr Hp He Hlast Hmax.
  destruct (tick_running now nowT nowU w last Hr Hp He Hlast)
    as (w' & Ht & Hn & Hs & Hend).
  cbv zeta in *. set (t := getSongTimeMs now w) in *.
  exists w'. split; [exact Ht|]. split; [exact Hn|].
  rewrite Hend. split.
  - intro H. apply andb_prop in H. destruct H as [H _].
    apply Qgtb_true in H. lra.
  - intro H. apply andb_true_intro. split; [apply Qgtb_true; lra|].
    apply Nat.eqb_eq. unfold countNotesLeft.
    rewrite processAutoMisses_noteStates. apply sweep_none_left.
    intros n Hin. specialize (Hmax n Hin). lra.
Qed.

(** X19.  When no note is later than the last one of the array, as in a chart
    sorted by time, a frame of a run that is going on ends the run exactly
    when the song time is more than 620 ms past the last note: the sweep of
    that frame has left no note pending. *)
Theorem tick_ends_sorted_run (now nowT nowU : Q) (w : World)
  (last : RuntimeNote) :
  running (clock w) = true -> paused (clock w) = false ->
  ended (clock w) = false ->
  nth_error (noteStates w) (List.length (noteStates w) - 1) = Some last ->
  (forall n, In n (noteStates w) -> tMs n <= tMs last) ->
  exists w',
    tick now nowT nowU w = Some w' /\
    (ended (clock w') = true <-> tMs last + 620 < getSongTimeMs now w) /\
    (ended (clock w') = true ->
     countNotesLeft w' = 0%nat /\
     Forall (fun n => state n <> pending) (noteStates w')).
Proof.
  intros Hr Hp He Hlast Hmax.
  destruct (tick_latest_core now nowT nowU w last Hr Hp He Hlast Hmax)
    as (w' & Ht & Hn & Hiff).
  exists w'. split; [exact Ht|]. split; [exact Hiff|].
  intro H. apply Hiff in H.
  assert (Hz : countNotesLeft w' = 0%nat).
  { unfold countNotesLeft. rewrite Hn. apply sweep_none_left.
    intros n Hin. specialize (Hmax n Hin). lra. }
  split; [exact Hz|].
  apply Forall_forall. now apply countNotesLeft_zero.
Qed.

Lemma tick_ends_sorted_run_witness :
  exists w',
    tick 2621 2621 2621 chordWorld = Some w' /\
    (ended (clock w') = true
     <-> tMs chordB + 620 < getSongTimeMs 2621 chordWorld).
Proof.
  destruct (tick_ends_sorted_run 2621 2621 2621 chordWorld chordB
              eq_refl eq_refl eq_refl eq_refl) as (w' & Ht & Hiff & _).
  - intros n [<-|[<-|[<-|[]]]]; vm_compute; discriminate.
  - exists w'. split; [exact Ht | exact Hiff].
Defined.

(** X20.  [tick] throws exactly in a frame of a run that is going on over an
    empty array of notes; so once a game is started on a chart without
    notes, every frame throws. *)
Theorem tick_throws_iff (now nowT nowU : Q) (w : World) :
  (tick now nowT nowU w = None <->
   running (clock w) = true /\ paused (clock w) = false /\
   ended (clock w) = false /\ noteStates w = []) /\
  (forall bm now0 nowT0 w',
     beatmap w = Some bm -> notes bm = [] ->
     startGame now0 nowT0 w = Some w' ->
     tick now nowT nowU w' = None).
Proof.
  assert (Hiff : forall v : World,
            tick now nowT nowU v = None <->
            running (clock v) = true /\ paused (clock v) = false /\
            ended (clock v) = false /\ noteStates v = []).
  { intro v. unfold tick.
    destruct (running (clock v)), (paused (clock v)), (ended (clock v));
      cbn [andb negb];
      try (split; [discriminate | intros (? & ? & ? & ?); discriminate]).
    rewrite processAutoMisses_noteStates, length_map.
    destruct (noteStates v) as [|a l] eqn:En.
    - cbn. split; auto.
    - assert (Hlt : (List.length (a :: l) - 1 < List.length (a :: l))%nat)
        by (cbn; lia).
      rewrite <- (length_map (spec_sweepNote (getSongTimeMs now v))) in Hlt
        at 2.
      apply nth_error_Some in Hlt.
      destruct (nth_error _ _) as [last|]; [|contradiction].
      destruct (Qgtb _ _ && _);
        (split; [discriminate | intros (_ & _ & _ & ?); discriminate]). }
  split; [apply Hiff|].
  intros bm now0 nowT0 w' Hb Hn Hs. apply Hiff.
  unfold startGame, resetGameState, rebuildRuntimeNotes in Hs.
  cbn [beatmap set_stats set_clock] in Hs. rewrite Hb, Hn in Hs.
  injection Hs as <-. repeat split.
Qed.

Lemma tick_throws_iff_witness : tick 16 16 16 emptyStarted = None.
Proof.
  assert (H : startGame 0 0 emptyLoaded = Some emptyStarted)
    by (vm_compute; reflexivity).
  exact (proj2 (tick_throws_iff 16 16 16 emptyLoaded)
           emptyChart 0 0 emptyStarted eq_refl eq_refl H).
Defined.

Lemma spec_eligible_sweep t0 t cx cy n :
  t0 <= t ->
  spec_eligible t cx cy (spec_sweepNote t0 n) = spec_eligible t cx cy n
  /\ (spec_eligible t cx cy n = true -> spec_sweepNote t0 n = n).
Proof.
  intro Ht. unfold spec_sweepNote.
  destruct (spec_expired t0 n) eqn:E; [|split; reflexivity].
  unfold spec_expired in E. apply andb_prop in E. destruct E as [Ep Eg].
  apply Qgtb_true in Eg.
  assert (Hn : spec_eligible t cx cy n = false).
  { unfold spec_eligible. rewrite Ep. cbn [andb].
    assert (Hw : Qleb (Qabs (t - tMs n)) 160 = false).
    { apply Qleb_false. apply Qlt_le_trans with (t - tMs n); [lra|].
      apply Qle_Qabs. }
    now rewrite Hw. }
  rewrite Hn. split; [reflexivity | discriminate].
Qed.

Lemma collectCandidates_sweep t0 t cx cy ns : forall i,
  t0 <= t ->
  collectCandidates t cx cy i (map (spec_sweepNote t0) ns)
  = collectCandidates t cx cy i ns.
Proof.
  induction ns as [|n ns IH]; intros i Ht; [reflexivity|].
  cbn [map]. rewrite !collectCandidates_cons, (IH (S i) Ht).
  destruct (spec_eligible_sweep t0 t cx cy n Ht) as [-> Hsame].
  destruct (spec_eligible t cx cy n) eqn:E; [|reflexivity].
  now rewrite (Hsame eq_refl).
Qed.

(** X21.  The sweep never takes a note away from an activation: after a sweep at
    a time [t0], an activation at the same or a later song time picks the
    note it would have picked without the sweep. *)
Theorem sweep_keeps_pick (t0 now cx cy : Q) (w : World) :
  t0 <= getSongTimeMs now w ->
  attemptHit_pick now cx cy (processAutoMisses t0 w)
  = attemptHit_pick now cx cy w.
Proof.
  intro Ht. unfold attemptHit_pick.
  assert (Hc : getSongTimeMs now (processAutoMisses t0 w) = getSongTimeMs now w).
  { unfold getSongTimeMs. now rewrite processAutoMisses_clock. }
  rewrite Hc, processAutoMisses_noteStates.
  now rewrite (collectCandidates_sweep t0 _ cx cy _ 0%nat Ht).
Qed.

Lemma sweep_keeps_pick_witness :
  attemptHit_pick 2100 241.6 300 (processAutoMisses 2050 chordWorld)
  = attemptHit_pick 2100 241.6 300 chordWorld.
Proof.
  apply (sweep_keeps_pick 2050 2100 241.6 300 chordWorld).
  vm_compute. discriminate.
Defined.

(** ** Accuracy at its ends, and the comparator *)

(** X22.  With consistent counters and a note judged at least, the accuracy is
    1 exactly when every judgment is Perfect, and 0 exactly when every
    judgment is a Miss. *)
Theorem computeAccuracy_extremes (w : World) :
  counts_consistent (stats w) -> (0 < totalJudged (stats w))%nat ->
  (computeAccuracy w == 1 <->
   g (stats w) = 0%nat /\ o (stats w) = 0%nat /\ m (stats w) = 0%nat) /\
  (computeAccuracy w == 0 <-> m (stats w) = totalJudged (stats w)).
Proof.
  unfold counts_consistent, computeAccuracy. intros Hc Hpos.
  set (st := stats w) in *.
  assert (Hsum : Qnat (p st) + Qnat (g st) + Qnat (o st) + Qnat (m st)
                 == Qnat (totalJudged st)).
  { rewrite <- Hc. rewrite !Qnat_plus. reflexivity. }
  assert (Hone : 1 <= Qnat (totalJudged st)).
  { unfold Qnat. change 1 with (inject_Z 1). rewrite <- Zle_Qle. lia. }
  assert (Hd : Qmax 1 (Qnat (totalJudged st)) == Qnat (totalJudged st)).
  { apply Q.max_r. exact Hone. }
  rewrite Hd.
  pose proof (Qnat_nonneg (p st)) as Hp. pose proof (Qnat_nonneg (g st)) as Hg.
  pose proof (Qnat_nonneg (o st)) as Ho. pose proof (Qnat_nonneg (m st)) as Hm.
  assert (Hz : forall k, Qnat k == 0 <-> k = 0%nat).
  { intro k. unfold Qnat. change 0 with (inject_Z 0). rewrite inject_Z_injective.
    lia. }
  split; split.
  - intro H.
    assert (E : Qnat (p st) * 1.0 + Qnat (g st) * 0.75 + Qnat (o st) * 0.45
                == Qnat (totalJudged st)).
    { rewrite <- (Qmult_1_l (Qnat (totalJudged st))), <- H. field. lra. }
    assert (Eg : Qnat (g st) == 0) by lra.
    assert (Eo : Qnat (o st) == 0) by lra.
    assert (Em : Qnat (m st) == 0) by lra.
    apply Hz in Eg, Eo, Em. auto.
  - intros (Eg & Eo & Em).
    assert (E : Qnat (p st) == Qnat (totalJudged st)).
    { rewrite <- Hc, Eg, Eo, Em, !Nat.add_0_r. reflexivity. }
    rewrite Eg, Eo. change (Qnat 0) with 0. rewrite E. field. lra.
  - intro H.
    assert (E : Qnat (p st) * 1.0 + Qnat (g st) * 0.75 + Qnat (o st) * 0.45
                == 0).
    { rewrite <- (Qmult_0_l (Qnat (totalJudged st))), <- H. field. lra. }
    assert (Ep : Qnat (p st) == 0) by lra.
    assert (Eg : Qnat (g st) == 0) by lra.
    assert (Eo : Qnat (o st) == 0) by lra.
    apply Hz in Ep, Eg, Eo. lia.
  - intro Em.
    assert (p st = 0 /\ g st = 0 /\ o st = 0)%nat as (Ep & Eg & Eo) by lia.
    rewrite Ep, Eg, Eo. change (Qnat 0) with 0. field. lra.
Qed.

Lemma computeAccuracy_extremes_witness :
  computeAccuracy endedWorld == 0.
Proof.
  assert (Hc : counts_consistent (stats endedWorld)) by (vm_compute; reflexivity).
  assert (Hp : (0 < totalJudged (stats endedWorld))%nat) by (vm_compute; lia).
  apply (proj2 (computeAccuracy_extremes endedWorld Hc Hp)).
  reflexivity.
Defined.

(** X23.  The comparator of [attemptHit] is a consistent one: it is negative
    one way exactly when it is positive the other way, it is 0 exactly on
    equal keys, and "not greater" is transitive; it orders the candidates by
    timing error first and by distance second. *)
Theorem compareCandidates_consistent (a b c : Cand.t) :
  (compareCandidates a b < 0 <-> 0 < compareCandidates b a) /\
  (compareCandidates a b == 0 <->
   Cand.absDelta a == Cand.absDelta b /\ Cand.d2 a == Cand.d2 b) /\
  (compareCandidates a b <= 0 -> compareCandidates b c <= 0 ->
   compareCandidates a c <= 0) /\
  (compareCandidates a b < 0 <->
   Cand.absDelta a < Cand.absDelta b
   \/ (Cand.absDelta a == Cand.absDelta b /\ Cand.d2 a < Cand.d2 b)).
Proof.
  assert (Hcases : forall u v : Cand.t,
            (~ Cand.absDelta u == Cand.absDelta v
             /\ compareCandidates u v == Cand.absDelta u - Cand.absDelta v)
            \/ (Cand.absDelta u == Cand.absDelta v
                /\ compareCandidates u v == Cand.d2 u - Cand.d2 v)).
  { intros u v. unfold compareCandidates.
    destruct (Qneqb (Cand.absDelta u) (Cand.absDelta v)) eqn:E.
    - left. apply Qneqb_true in E. split; [exact E | reflexivity].
    - right. apply Qneqb_false in E. split; [exact E | reflexivity]. }
  split; [|split; [|split]].
  - destruct (Hcases a b) as [[N ->]|[E ->]], (Hcases b a) as [[N' ->]|[E' ->]];
      split; intro H; try lra; exfalso;
      try (apply N; lra); try (apply N'; lra).
  - destruct (Hcases a b) as [[N ->]|[E ->]]; split.
    + intro H. exfalso. apply N. lra.
    + intros [H _]. contradiction.
    + intro H. split; [exact E | lra].
    + intros [_ H]. lra.
  - apply compareCandidates_trans.
  - destruct (Hcases a b) as [[N ->]|[E ->]]; split.
    + intro H. left. lra.
    + intros [H|[H _]]; [lra | contradiction].
    + intro H. right. split; [exact E | lra].
    + intros [H|[_ H]]; lra.
Qed.

(** ** Drawing a note *)

Lemma Qltb_true a b : Qltb a b = true <-> a < b.
Proof. unfold Qltb. rewrite negb_true_iff. apply Qleb_false. Qed.

Lemma Qltb_false a b : Qltb a b = false <-> b <= a.
Proof. unfold Qltb. rewrite negb_false_iff. apply Qleb_true. Qed.

(** X24.  A note is drawn from 900 ms before its time to 420 ms after it, both
    ends included, and at no other time; while it is drawn its bubble and
    its inner dot always are. *)
Theorem drawNote_window (n : RuntimeNote) (t : Q) :
  (drawNote n t = [] <-> t < tMs n - 900 \/ tMs n + 420 < t) /\
  (tMs n - 900 <= t -> t <= tMs n + 420 ->
   exists alpha stroke,
     In (Bubble (x n) (y n) (r n) alpha stroke) (drawNote n t) /\
     In (InnerDot (x n) (y n) (Qmax 3 (r n * 0.10)) (alpha * 0.85))
        (drawNote n t)).
Proof.
  unfold drawNote, CONFIG.PREEMPT_MS, CONFIG.HIT_WINDOW_MS, CONFIG.AFTER_MS.
  destruct (Qltb t (tMs n - 900)) eqn:E1.
  { apply Qltb_true in E1. split; [split; auto|]. intros H1 H2. lra. }
  apply Qltb_false in E1.
  destruct (Qgtb t (tMs n + 160 + 260)) eqn:E2.
  { apply Qgtb_true in E2. split; [split; [auto | reflexivity]|].
    - right. lra.
    - intros H1 H2. lra. }
  apply Qgtb_false in E2. cbv zeta. split.
  - split.
    + intro H. apply (f_equal (@List.length DrawCmd)) in H.
      rewrite !length_app in H. cbn in H. lia.
    + intros [H|H]; lra.
  - intros _ _. eexists _, _. split.
    + apply in_or_app. right. left. reflexivity.
    + apply in_or_app. right. right. left. reflexivity.
Qed.

Lemma drawNote_window_witness :
  exists alpha stroke,
    In (Bubble (x chordA) (y chordA) (r chordA) alpha stroke)
       (drawNote chordA 1500).
Proof.
  destruct (proj2 (drawNote_window chordA 1500)) as (alpha & stroke & H & _).
  - vm_compute. discriminate.
  - vm_compute. discriminate.
  - now exists alpha, stroke.
Defined.

(** X25.  Everything [drawNote] draws is drawn at an opacity between 0 and 1,
    and the approach ring of a note of radius [r >= 0] has a radius between
    [r] and [1.8 r]. *)
Theorem drawNote_bounds (n : RuntimeNote) (t : Q) :
  Forall (fun c => 0 <= cmd_alpha c /\ cmd_alpha c <= 1) (drawNote n t) /\
  (0 <= r n ->
   forall cx cy radius alpha,
     In (ApproachRing cx cy radius alpha) (drawNote n t) ->
     state n = pending /\ tMs n - 900 <= t /\ t <= tMs n /\
     r n <= radius /\ radius <= r n * 1.8).
Proof.
  unfold drawNote, CONFIG.PREEMPT_MS, CONFIG.HIT_WINDOW_MS, CONFIG.AFTER_MS,
    CONFIG.APPROACH_RING_SCALE.
  destruct (Qltb t (tMs n - 900)); [split; [constructor | intros _ ? ? ? ? []]|].
  destruct (Qgtb t (tMs n + 160 + 260));
    [split; [constructor | intros _ ? ? ? ? []]|].
  cbv zeta.
  set (alpha := match state n with
                | pending => clamp (clamp ((t - (tMs n - 900)) / 900) 0 1) 0.15 1
                | _ => clamp (1 - (t - numberOf (judgedAtMs n)) / 260) 0 1
                end).
  assert (Ha : 0 <= alpha /\ alpha <= 1).
  { unfold alpha. destruct (state n).
    - destruct (clamp_in_range (clamp ((t - (tMs n - 900)) / 900) 0 1) 0.15 1)
        as [H1 H2]; [lra|]. split; lra.
    - apply clamp_in_range. lra.
    - apply clamp_in_range. lra. }
  destruct Ha as [Ha0 Ha1]. split.
  - apply Forall_app. split; [|apply Forall_app; split].
    + destruct (state n); [|constructor|constructor].
      destruct (Qleb 0 (tMs n - t) && Qleb (tMs n - t) 900); [|constructor].
      constructor; [|constructor]. cbn. split; lra.
    + constructor; [cbn; split; lra|]. constructor; [cbn; split; lra|].
      constructor.
    + destruct (negb _ && _); [|constructor].
      constructor; [cbn; split; lra | constructor].
  - intros Hr cx cy radius a Hin.
    apply in_app_or in Hin. destruct Hin as [Hin|Hin].
    + destruct (state n); [|destruct Hin|destruct Hin].
      destruct (Qleb 0 (tMs n - t) && Qleb (tMs n - t) 900) eqn:E;
        [|destruct Hin].
      apply andb_prop in E. destruct E as [E1 E2].
      apply Qleb_true in E1, E2.
      destruct Hin as [Hin|[]]. injection Hin as _ _ <- _.
      split; [reflexivity|]. split; [lra|]. split; [lra|].
      destruct (clamp_in_range (1 - (tMs n - t) / 900) 0 1) as [H0 H1]; [lra|].
      unfold lerp. split; nra.
    + apply in_app_or in Hin. destruct Hin as [Hin|Hin].
      * destruct Hin as [Hin|[Hin|[]]]; discriminate.
      * destruct (negb _ && _); [|destruct Hin].
        destruct Hin as [Hin|[]]. discriminate.
Qed.

Lemma drawNote_bounds_witness :
  exists radius alpha,
    In (ApproachRing (x chordA) (y chordA) radius alpha)
       (drawNote chordA 1500) /\
    r chordA <= radius /\ radius <= r chordA * 1.8.
Proof.
  assert (Hin : exists radius alpha,
            In (ApproachRing (x chordA) (y chordA) radius alpha)
               (drawNote chordA 1500)).
  { vm_compute. eexists _, _. left. reflexivity. }
  destruct Hin as (radius & alpha & Hin).
  assert (Hr : 0 <= r chordA) by (vm_compute; discriminate).
  destruct (proj2 (drawNote_bounds chordA 1500) Hr _ _ radius alpha Hin)
    as (_ & _ & _ & H1 & H2).
  exists radius, alpha. auto.
Defined.

(** X26.  A note that an activation can pick is on the screen: it is drawn as a
    pending bubble, at its centre and radius, at an opacity of 0.8 at
    least. *)
Theorem eligible_note_is_drawn (t cx cy : Q) (n : RuntimeNote) :
  spec_eligible t cx cy n = true ->
  exists alpha,
    In (Bubble (x n) (y n) (r n) alpha strokePending) (drawNote n t) /\
    0.8 <= alpha /\ alpha <= 1.
Proof.
  intro He. pose proof (spec_eligible_pending t cx cy n He) as Hs.
  unfold spec_eligible in He.
  apply andb_prop in He. destruct He as [He _].
  apply andb_prop in He. destruct He as [_ He]. apply Qleb_true in He.
  apply Qabs_Qle_condition in He. destruct He as [Hlo Hhi].
  unfold drawNote, CONFIG.PREEMPT_MS, CONFIG.HIT_WINDOW_MS, CONFIG.AFTER_MS.
  assert (E1 : Qltb t (tMs n - 900) = false) by (apply Qltb_false; lra).
  assert (E2 : Qgtb t (tMs n + 160 + 260) = false) by (apply Qgtb_false; lra).
  rewrite E1, E2, Hs. cbv zeta.
  eexists. split.
  - apply in_or_app. right. left. reflexivity.
  - assert (Hq : 0.8 <= (t - (tMs n - 900)) / 900).
    { apply Qle_shift_div_l; lra. }
    unfold clamp. q_minmax; split; lra.
Qed.

Lemma eligible_note_is_drawn_witness :
  exists alpha,
    In (Bubble (x chordA) (y chordA) (r chordA) alpha strokePending)
       (drawNote chordA 2100) /\ 0.8 <= alpha /\ alpha <= 1.
Proof.
  apply (eligible_note_is_drawn 2100 (x chordA) (y chordA) chordA).
  vm_compute. reflexivity.
Defined.

(** ** The chart of the game *)

Lemma ascendingb_sound (l : list NoteDef) :
  ascendingb (map def_tMs l) = true ->
  StronglySorted (fun a b => def_tMs a <= def_tMs b) l.
Proof.
  induction l as [|a l IH]; [constructor|].
  cbn [map ascendingb]. intro H. apply andb_prop in H. destruct H as [H1 H2].
  constructor; [now apply IH|].
  rewrite forallb_forall in H1. apply Forall_forall. intros b Hb.
  apply Qle_bool_iff. apply H1. now apply in_map.
Qed.

Section ChartFacts.
Variables (sin cos : Q -> Q) (PI : Q).

Let chart := buildBeatmap sin cos PI.

Lemma chart_times_checked :
  List.length (notes chart) = 72%nat /\
  ascendingb (map def_tMs (notes chart)) = true /\
  forallb (fun q => Qle_bool 1200 q && Qle_bool q 23950)
    (map def_tMs (notes chart)) = true /\
  forallb (fun d => match rN d with None => true | Some _ => false end)
    (notes chart) = true /\
  match nth_error (map def_tMs (notes chart)) 71 with
  | Some q => Qeq_bool q 23950
  | None => false
  end = true /\
  Qeq_bool (durationMs chart) 25860 = true.
Proof. vm_compute. repeat split. Qed.

(** X27.  Whatever the sine and the cosine are, the chart [buildBeatmap] builds
    has 72 notes in ascending order of time, none with a radius factor, the
    first time 1200 ms and the last 23950 ms, and a declared duration of
    25860 ms: later than the end of the run, 620 ms after the last note. *)
Theorem buildBeatmap_sorted :
  List.length (notes chart) = 72%nat /\
  StronglySorted (fun a b => def_tMs a <= def_tMs b) (notes chart) /\
  Forall (fun d => 1200 <= def_tMs d /\ def_tMs d <= 23950 /\ rN d = None)
    (notes chart) /\
  (exists final, nth_error (notes chart) 71 = Some final
                 /\ def_tMs final == 23950) /\
  durationMs chart == 25860 /\
  23950 + 160 + 260 + 200 < durationMs chart.
Proof.
  destruct chart_times_checked as (Hlen & Hasc & Hrange & Hrn & Hlast & Hdur).
  apply Qeq_bool_iff in Hdur.
  split; [exact Hlen|]. split; [now apply ascendingb_sound|].
  split; [|split; [|split; [exact Hdur | rewrite Hdur; reflexivity]]].
  - rewrite forallb_forall in Hrange, Hrn. apply Forall_forall. intros d Hd.
    specialize (Hrange (def_tMs d) (in_map def_tMs _ _ Hd)).
    apply andb_prop in Hrange. destruct Hrange as [H1 H2].
    apply Qle_bool_iff in H1, H2.
    specialize (Hrn d Hd). destruct (rN d); [discriminate|]. auto.
  - destruct (nth_error (notes chart) 71) as [final|] eqn:E.
    + exists final. split; [reflexivity|].
      rewrite (map_nth_error def_tMs _ _ E) in Hlast.
      now apply Qeq_bool_iff.
    + apply nth_error_None in E. lia.
Qed.

(** X28.  In every session of the chart of the game, a frame of a run that is
    going on never throws, and it ends the run exactly when the song time
    is past 24570 ms, which is 620 ms after the last note; no note is
    pending then. *)
Theorem shipped_run_ends (now nowT nowU : Q) (w : World) :
  reachable chart w ->
  running (clock w) = true -> paused (clock w) = false ->
  ended (clock w) = false ->
  exists w',
    tick now nowT nowU w = Some w' /\
    (ended (clock w') = true <-> 24570 < getSongTimeMs now w) /\
    (ended (clock w') = true -> countNotesLeft w' = 0%nat).
Proof.
  intros Hreach Hr Hp He.
  apply reachable_inv in Hreach. destruct Hreach as (_ & _ & _ & Hmap).
  destruct chart_times_checked as (Hlen & _ & Hrange & _ & Hlast & _).
  rewrite <- Hmap in Hrange, Hlast.
  assert (Hl : List.length (noteStates w) = 72%nat).
  { rewrite <- Hlen, <- (length_map tMs), Hmap. apply length_map. }
  destruct (nth_error (noteStates w) 71) as [last|] eqn:E;
    [|apply nth_error_None in E; lia].
  rewrite (map_nth_error tMs _ _ E) in Hlast. apply Qeq_bool_iff in Hlast.
  assert (Hmax : forall n, In n (noteStates w) -> tMs n <= tMs last).
  { intros n Hn. rewrite forallb_forall in Hrange.
    specialize (Hrange (tMs n) (in_map tMs _ _ Hn)).
    apply andb_prop in Hrange. destruct Hrange as [_ H2].
    apply Qle_bool_iff in H2. lra. }
  destruct (tick_latest_core now nowT nowU w last Hr Hp He)
    as (w' & Ht & Hn & Hiff); [rewrite Hl; exact E | exact Hmax |].
  exists w'. split; [exact Ht|]. split.
  - rewrite Hiff. split; intro H; lra.
  - intro H. apply Hiff in H.
    unfold countNotesLeft. rewrite Hn. apply sweep_none_left.
    intros n Hin. specialize (Hmax n Hin). lra.
Qed.
End ChartFacts.

Lemma shipped_run_ends_witness :
  exists w',
    tick 25000 25000 25000 flatStarted = Some w' /\
    (ended (clock w') = true <-> 24570 < getSongTimeMs 25000 flatStarted).
Proof.
  assert (Hreach : reachable flatChart flatStarted).
  { apply started_reachable. vm_compute. reflexivity. }
  destruct (shipped_run_ends (fun _ => 0) (fun _ => 0) 3 25000 25000 25000
              flatStarted Hreach eq_refl eq_refl eq_refl)
    as (w' & Ht & Hiff & _).
  exists w'. split; [exact Ht | exact Hiff].
Defined.

(** ** The pseudo-random generator *)










(** The generator at 0, and from [2^53] on, where the addition to the
    captured variable is rounded: [2^53 + 0x6D2B79F5] is odd, and the
    variable gets the even neighbour. *)
Example mulberry32_rounded :
  mulberry32 0 = (inject_Z 1144304738 / 4294967296, 1831565813%Z) /\
  mulberry32 (2 ^ 53)
  = (inject_Z 3850105811 / 4294967296, (2 ^ 53 + 1831565813 - 1)%Z).
Proof. split; reflexivity. Qed.



(** ** The song clock never runs backwards *)

(** X30.  While the state is not touched, a later reading of the wall clock never
    gives an earlier song time; and across a pause made at a wall-clock
    time [now1], a reading at a later time [now2] is not earlier than the
    reading that was made at [now1] before it. *)
Theorem getSongTimeMs_monotone (now1 now2 nowT : Q) (w : World) :
  now1 <= now2 ->
  getSongTimeMs now1 w <= getSongTimeMs now2 w /\
  (paused (clock w) = false ->
   getSongTimeMs now1 w <= getSongTimeMs now2 (togglePause now1 nowT w)).
Proof.
  intro H. unfold togglePause, getSongTimeMs.
  destruct (running (clock w)) eqn:Er, (paused (clock w)) eqn:Ep,
    (ended (clock w)) eqn:Ee;
    cbn [negb orb clock toast set_clock running paused startAtPerfMs
         pauseAtPerfMs pausedTotalMs];
    rewrite ?Er, ?Ep; cbn [negb]; split; intros; try discriminate; lra.
Qed.

Lemma getSongTimeMs_monotone_witness :
  getSongTimeMs 1500 chordWorld <= getSongTimeMs 2000 chordWorld /\
  getSongTimeMs 1500 chordWorld
  <= getSongTimeMs 2000 (togglePause 1500 1500 chordWorld).
Proof.
  assert (H : 1500 <= 2000) by lra.
  destruct (getSongTimeMs_monotone 1500 2000 1500 chordWorld H) as [H1 H2].
  split; [exact H1 | exact (H2 eq_refl)].
Defined.
